(** * python-emotiv: the EPOC acquisition session (emotiv/epoc.py)

    A shallow embedding of class [EPOC]: its protocol tables, the key
    derivation of [setupEncryption], the acquisition loop and frame
    parser of [acquireData], and [getContactQuality].

    Python dictionaries are finite maps ([gmap]), Python lists are lists,
    Python integers are [Z] (bit positions and list indices, which the
    source only ever writes as non-negative literals, are [nat]), the
    duration of an acquisition, an integer or a float, is a rational
    [Q], and exceptions are an error result. *)

From Stdlib Require Import ZArith QArith String Ascii List Lia.
From stdpp Require Import gmap strings list fin_maps.

(** ** Exceptions *)

(** The exceptions that leave the modelled methods.  [EPOCTurnedOffError]
    and [EPOCUSBError] are the module's own classes; [KeyError],
    [IndexError], [TypeError] and [IOError] are Python's built-ins
    (dictionary lookup; string and array indexing; formatting [None]
    with [%d]; a failed read of a file object); [InterpretError] is what
    [bitstring] raises for the [.uint] of an empty bit string. *)
Inductive exn : Type :=
  | EPOCTurnedOffError
  | EPOCUSBError (errno : Z)
  | KeyError (key : string)
  | IndexError
  | InterpretError
  | TypeError
  | IOError (errno : Z).

Inductive result (A : Type) : Type :=
  | Ok (a : A)
  | Raise (e : exn).
Arguments Ok {A} a.
Arguments Raise {A} e.

(** The error monad, with stdpp's [x ← c; k] notation. *)
Global Instance result_ret : MRet result := λ A a, Ok a.
Global Instance result_bind : MBind result := λ A B k c,
  match c with
  | Ok a => k a
  | Raise e => Raise e
  end.

(** ** Protocol tables built by [EPOC.__init__] *)

(** [slice(start, stop)]. *)
Record slice : Type := Slice { start : nat; stop : nat }.

Global Instance slice_eq_dec : EqDecision slice.
Proof. solve_decision. Defined.

(** [dict(pairs)]: later pairs overwrite earlier ones. *)
Definition dict {V} (pairs : list (string * V)) : gmap string V :=
  fold_left (λ m kv, <[kv.1 := kv.2]> m) pairs ∅.

(** [l[-n:]] *)
Definition last_n {A} (n : nat) (l : list A) : list A :=
  drop (length l - n) l.

(** [l * n] *)
Definition list_times {A} (l : list A) (n : nat) : list A :=
  mjoin (replicate n l).

(** [self.channels] *)
Definition channel_names : list string :=
  ["F3"; "FC5"; "AF3"; "F7"; "T7"; "P7"; "O1";
   "O2"; "P8"; "T8"; "F8"; "AF4"; "FC6"; "F4"].

(** [self.quality] as first written. *)
Definition quality_table : gmap string Z :=
  dict [("F3", 0%Z); ("FC5", 0%Z); ("AF3", 0%Z); ("F7", 0%Z);
        ("T7", 0%Z); ("P7", 0%Z); ("O1", 0%Z); ("O2", 0%Z);
        ("P8", 0%Z); ("T8", 0%Z); ("F8", 0%Z); ("AF4", 0%Z);
        ("FC6", 0%Z); ("F4", 0%Z)].

(** [self.cqOrder], statement by statement; [None] is Python's [None]. *)
Definition cqOrder_0_15 : list (option string) :=
  [Some "F3"; Some "FC5"; Some "AF3"; Some "F7"; Some "T7"; Some "P7";
   Some "O1"; Some "O2"; Some "P8"; Some "T8"; Some "F8"; Some "AF4";
   Some "FC6"; Some "F4"; Some "F8"; Some "AF4"].

Definition cqOrder_gap : list (option string) :=
  cqOrder_0_15 ++ list_times [None] 48.

Definition cqOrder_repeat : list (option string) :=
  cqOrder_gap ++ take 16 cqOrder_gap.

Definition cqOrder_FC6 : list (option string) :=
  cqOrder_repeat ++ [Some "FC6"].

Definition cqOrder_table : list (option string) :=
  cqOrder_FC6 ++ list_times (last_n 4 cqOrder_FC6) 12.

(** [self.slices], statement by statement. *)
Definition channel_slices : list slice :=
  [Slice 8 22; Slice 22 36; Slice 36 50; Slice 50 64; Slice 64 78;
   Slice 78 92; Slice 92 106; Slice 134 148; Slice 148 162;
   Slice 162 176; Slice 176 190; Slice 190 204; Slice 204 218;
   Slice 218 232].

Definition slices_channels : gmap string slice :=
  dict (zip channel_names channel_slices).

Definition slices_gyro_first : gmap string slice :=
  <["GYROX" := Slice 233 240]> slices_channels.

Definition slices_gyro_second : gmap string slice :=
  <["GYROX" := Slice 240 248]> slices_gyro_first.

Definition slices_table : gmap string slice :=
  <["SEQ#" := Slice 0 8]> slices_gyro_second.

(** ** The session object *)

(** A raw frame is the byte string one [endpoint.read(32)] returns; a
    decoded frame is the [BitArray] the decryptor puts on the output
    queue, most significant bit of the first byte first. *)
Abbreviation raw_frame := (list Byte.byte).
Abbreviation bit_frame := (list bool).

(** The attributes of an [EPOC] object that the modelled methods read or
    write.  The two [JoinableQueue]s are lists, oldest element first.
    A decryptor [Process] is identified by the key it was started with:
    [decryptor] is the attribute [self.decryptor], the process started
    last, and [workers] are all the processes started so far, oldest
    first (an earlier process keeps running when [self.decryptor] is
    assigned again). *)
Record EPOC : Type := {
  decryptor : option string;
  workers : list string;
  decryption_key : option string;
  channels : list string;
  quality : gmap string Z;
  cqOrder : list (option string);
  slices : gmap string slice;
  sampling_rate : Z;
  serialNumber : string;
  packetLoss : Z;
  counter : Z;
  battery : Z;
  gyroX : Z;
  gyroY : Z;
  input_queue : list raw_frame;
  output_queue : list bit_frame;
}.

(** [EPOC.__init__] up to the call of [enumerate], for the serial number
    that the bus enumeration reports. *)
Definition EPOC_init (sn : string) : EPOC := {|
  decryptor := None;
  workers := [];
  decryption_key := None;
  channels := channel_names;
  quality := quality_table;
  cqOrder := cqOrder_table;
  slices := slices_table;
  sampling_rate := 128;
  serialNumber := sn;
  packetLoss := 0;
  counter := 0;
  battery := 0;
  gyroX := 0;
  gyroY := 0;
  input_queue := [];
  output_queue := [];
|}.

(** The assignments of [setupEncryption]: the key, and the decryptor
    process started with it. *)
Definition start_decryptor (k : string) (self : EPOC) : EPOC := {|
  decryptor := Some k;
  workers := workers self ++ [k];
  decryption_key := Some k;
  channels := channels self;
  quality := quality self;
  cqOrder := cqOrder self;
  slices := slices self;
  sampling_rate := sampling_rate self;
  serialNumber := serialNumber self;
  packetLoss := packetLoss self;
  counter := counter self;
  battery := battery self;
  gyroX := gyroX self;
  gyroY := gyroY self;
  input_queue := input_queue self;
  output_queue := output_queue self;
|}.

Definition set_queues (inq : list raw_frame) (outq : list bit_frame)
    (self : EPOC) : EPOC := {|
  decryptor := decryptor self;
  workers := workers self;
  decryption_key := decryption_key self;
  channels := channels self;
  quality := quality self;
  cqOrder := cqOrder self;
  slices := slices self;
  sampling_rate := sampling_rate self;
  serialNumber := serialNumber self;
  packetLoss := packetLoss self;
  counter := counter self;
  battery := battery self;
  gyroX := gyroX self;
  gyroY := gyroY self;
  input_queue := inq;
  output_queue := outq;
|}.

(** ** Key derivation: [setupEncryption] *)

(** [s[i]] on a string: [IndexError] past the end. *)
Definition str_index (s : string) (i : nat) : result ascii :=
  match String.get i s with
  | Some c => Ok c
  | None => Raise IndexError
  end.

(** [''.join(chars)] *)
Definition join_chars (chars : list ascii) : string :=
  string_of_list_ascii chars.

Definition byte_lit (n : N) : ascii := ascii_of_N n.

(** The sixteen characters joined into [self.decryption_key]. *)
Definition derive_key (sn : string) (research : bool) : result string :=
  c15 ← str_index sn 15;
  c14 ← str_index sn 14;
  c13 ← str_index sn 13;
  c12 ← str_index sn 12;
  if research then
    Ok (join_chars [c15; byte_lit 0x00; c14; byte_lit 0x54;
                    c13; byte_lit 0x10; c12; byte_lit 0x42;
                    c15; byte_lit 0x00; c14; byte_lit 0x48;
                    c13; byte_lit 0x00; c12; byte_lit 0x50])
  else
    Ok (join_chars [c15; byte_lit 0x00; c14; byte_lit 0x48;
                    c13; byte_lit 0x00; c12; byte_lit 0x54;
                    c15; byte_lit 0x10; c14; byte_lit 0x42;
                    c13; byte_lit 0x00; c12; byte_lit 0x50]).

(** [setupEncryption]: stores the key, then creates and starts a
    decryptor process with that key and the two queues, and stores it
    in [self.decryptor].  Every call starts one more process. *)
Definition setupEncryption (self : EPOC) (research : bool) : result EPOC :=
  k ← derive_key (serialNumber self) research;
  Ok (start_decryptor k self).

(** The eight fixed bytes of each variant, in key order. *)
Definition research_bytes : list ascii :=
  [byte_lit 0x00; byte_lit 0x54; byte_lit 0x10; byte_lit 0x42;
   byte_lit 0x00; byte_lit 0x48; byte_lit 0x00; byte_lit 0x50].

Definition consumer_bytes : list ascii :=
  [byte_lit 0x00; byte_lit 0x48; byte_lit 0x00; byte_lit 0x54;
   byte_lit 0x10; byte_lit 0x42; byte_lit 0x00; byte_lit 0x50].

Definition fixed_bytes (research : bool) : list ascii :=
  if research then research_bytes else consumer_bytes.

(** ** Bit fields of a decoded frame *)

(** [bits[s]]: Python slicing, clipped at the end of the frame. *)
Definition bit_slice (s : slice) (bits : bit_frame) : list bool :=
  take (stop s - start s) (drop (start s) bits).

(** Big-endian value of a bit string. *)
Definition bits_value (bs : list bool) : Z :=
  fold_left (λ acc (b : bool), (2 * acc + (if b then 1 else 0))%Z) bs 0%Z.

(** [bs.uint]; an empty bit string has no integer interpretation. *)
Definition uint (bs : list bool) : result Z :=
  match bs with
  | [] => Raise InterpretError
  | _ => Ok (bits_value bs)
  end.

(** [d[k]] on a dictionary. *)
Definition dict_get {V} (d : gmap string V) (k : string) : result V :=
  match d !! k with
  | Some v => Ok v
  | None => Raise (KeyError k)
  end.

(** ** The sample matrix *)

(** A two-dimensional array as the list of its rows.  The entries the
    source stores are unsigned integers of at most 14 bits, which the
    array's floating-point cells hold exactly; they are kept as [Z]. *)
Abbreviation matrix := (list (list Z)).

(** [np.zeros((rows, cols))] *)
Definition np_zeros (rows cols : nat) : matrix :=
  replicate rows (replicate cols 0%Z).

(** [m[i, j] = v] *)
Definition mat_set (m : matrix) (i j : nat) (v : Z) : result matrix :=
  match m !! i with
  | Some row =>
      if decide (j < length row) then Ok (<[i := <[j := v]> row]> m)
      else Raise IndexError
  | None => Raise IndexError
  end.

(** [m[i, j]] *)
Definition mat_get (m : matrix) (i j : nat) : option Z :=
  row ← m !! i; row !! j.

(** [m[i]] *)
Definition mat_row (m : matrix) (i : nat) : result (list Z) :=
  match m !! i with
  | Some row => Ok row
  | None => Raise IndexError
  end.

(** ** The device and the scheduler *)

(** What one [endpoint.read(32)] does.  It returns a raw frame; or it
    raises [usb.USBError], whose [errno] is an integer or [None]; or,
    when the endpoint is the file object of the [hidraw] method, it
    raises [IOError]. *)
Inductive read_result : Type :=
  | ReadOk (raw : raw_frame)
  | USBError (errno : option Z)
  | ReadIOError (errno : Z).

(** A run of worker activity: each entry lets one decryptor process,
    named by its position in [workers], handle one frame. *)
Abbreviation steps := (list nat).

(** One iteration of the acquisition loop as the environment scripts it:
    the outcome of the device read, and the worker steps that happen
    between the [put] of this iteration and the next [qsize()] poll.  A
    script that runs out stands for a device that sends nothing more:
    the read blocks for ever. *)
Record tick : Type := Tick { outcome : read_result; worker_steps : steps }.

(** The worker steps that the scheduler grants after the loop: while
    [join()] waits, that is before the [qsize()] that sizes the matrix;
    between that [qsize()] and the one that bounds the [for] loop; and
    from then until the call ends. *)
Record late_steps : Type := LateSteps {
  during_join : steps;
  before_range : steps;
  during_parse : steps;
}.

(** The [.mat] file handed to [savemat]: its name and its variables. *)
Record mat_file : Type := MatFile {
  file_name : string;
  variables : gmap string (list Z);
}.

Section Pipeline.

(** The block cipher: [decrypt key raw] is the decoded frame, or [None]
    when the frame does not decrypt. *)
Variable decrypt : string → raw_frame → option bit_frame.

(** Modelled from the spec: the decryption worker [emotiv.decryptor],
    whose code is not part of the sources.  One step of the process
    [i]: it takes the oldest raw frame off the input queue, decrypts it
    with the key it was started with and puts the decoded frame on the
    output queue; a frame that fails to decrypt is dropped and the
    worker goes on.  A step of a process that was never started, or on
    an empty input queue, does nothing. *)
Definition decryptor_step (i : nat) (self : EPOC) : EPOC :=
  match workers self !! i, input_queue self with
  | Some key, raw :: inq =>
      match decrypt key raw with
      | Some bits => set_queues inq (output_queue self ++ [bits]) self
      | None => set_queues inq (output_queue self) self
      end
  | _, _ => self
  end.

Fixpoint decryptor_steps (run : steps) (self : EPOC) : EPOC :=
  match run with
  | [] => self
  | i :: run' => decryptor_steps run' (decryptor_step i self)
  end.

(** [self.output_queue.join()]: the call waits until every frame put
    on the output queue has been acknowledged with [task_done()], which
    [acquireData] itself never calls and so is left to the worker; it
    takes no frame off either queue and is no barrier for the input
    queue.  The wait is taken to end, and the worker goes on while the
    call waits: [run] are the steps it takes in that time. *)
Definition queue_join (run : steps) (self : EPOC) : EPOC :=
  decryptor_steps run self.

(** [self.input_queue.put(raw)] *)
Definition input_put (raw : raw_frame) (self : EPOC) : EPOC :=
  set_queues (input_queue self ++ [raw]) (output_queue self) self.

(** The [except usb.USBError] handler: [errno == 110] selects
    [EPOCTurnedOffError]; otherwise the message of [EPOCUSBError] is
    formatted with [%d], which fails with [TypeError] when [errno] is
    [None]. *)
Definition usb_error_handler (errno : option Z) : exn :=
  if decide (errno = Some 110%Z) then EPOCTurnedOffError
  else
    match errno with
    | Some n => EPOCUSBError n
    | None => TypeError
    end.

(** The [while] loop of [acquireData]; [totalSamples] is compared with
    the integer [qsize()] as Python compares numbers.  The result is
    the session, the unread rest of the script and the outcome; [None]
    when the loop is still reading when the script ends.  An exception
    that is not a [usb.USBError] passes through the handler. *)
Fixpoint acquire_loop (env : list tick) (self : EPOC) (totalSamples : Q)
    : option (EPOC * list tick * result ()) :=
  if Qeq_bool (inject_Z (Z.of_nat (length (output_queue self)))) totalSamples
  then Some (self, env, Ok ())
  else
    match env with
    | [] => None
    | t :: env' =>
        match outcome t with
        | USBError errno => Some (self, env', Raise (usb_error_handler errno))
        | ReadIOError errno => Some (self, env', Raise (IOError errno))
        | ReadOk raw =>
            acquire_loop env'
              (decryptor_steps (worker_steps t) (input_put raw self))
              totalSamples
        end
    end.

(** The inner [for i, chName in enumerate(channelMask)] loop, from
    index [i] on. *)
Fixpoint fill_channels (tbl : gmap string slice) (bits : bit_frame)
    (spl i : nat) (mask : list string) (m : matrix) : result matrix :=
  match mask with
  | [] => Ok m
  | chName :: rest =>
      s ← dict_get tbl chName;
      v ← uint (bit_slice s bits);
      m' ← mat_set m (S i) spl v;
      fill_channels tbl bits spl (S i) rest m'
  end.

(** The body of the [for spl] loop for one decoded frame. *)
Definition parse_frame (tbl : gmap string slice) (mask : list string)
    (spl : nat) (bits : bit_frame) (m : matrix) : result matrix :=
  s ← dict_get tbl "SEQ#";
  v ← uint (bit_slice s bits);
  m' ← mat_set m 0 spl v;
  fill_channels tbl bits spl 0 mask m'.

(** The [for spl in xrange(qsize())] loop from column [spl] on: each
    iteration takes one frame off the output queue.  Returns what is
    left on the queue and the matrix. *)
Fixpoint parse_frames (tbl : gmap string slice) (mask : list string)
    (spl : nat) (q : list bit_frame) (m : matrix)
    : list bit_frame * result matrix :=
  match q with
  | [] => ([], Ok m)
  | bits :: q' =>
      match parse_frame tbl mask spl bits m with
      | Ok m' => parse_frames tbl mask (S spl) q' m'
      | Raise e => (q', Raise e)
      end
  end.

(** The dictionary handed to [savemat], built over the mask from
    index [i] on. *)
Fixpoint matlab_rows (m : matrix) (i : nat) (mask : list string)
    (data : gmap string (list Z)) : result (gmap string (list Z)) :=
  match mask with
  | [] => Ok data
  | chName :: rest =>
      row ← mat_row m (S i);
      matlab_rows m (S i) rest (<[chName := row]> data)
  end.

(** The [if savePrefix:] block; [None] and the empty string are false. *)
Definition save_matlab (m : matrix) (mask : list string)
    (savePrefix : option string) : result (option mat_file) :=
  match savePrefix with
  | None | Some "" => Ok None
  | Some prefix =>
      seq ← mat_row m 0;
      data ← matlab_rows m 0 mask {["SEQ" := seq]};
      Ok (Some (MatFile (prefix +:+ "-" +:+ String.concat "-" mask +:+ ".mat")
                        data))
  end.

(** [acquireData(duration, channelMask, savePrefix)] against a scripted
    device and scheduler.  The matrix is sized by one [qsize()] and the
    [for] loop is bounded by a second one; each iteration takes the
    oldest frame off the output queue, so frames that the worker adds
    meanwhile stay at the end of the queue. *)
Definition acquireData (env : list tick) (late : late_steps) (self : EPOC)
    (duration : Q) (channelMask : list string) (savePrefix : option string)
    : option (EPOC * list tick * result (matrix * option mat_file)) :=
  let totalSamples := (duration * inject_Z (sampling_rate self))%Q in
  match acquire_loop env self totalSamples with
  | None => None
  | Some (self1, env1, Raise e) => Some (self1, env1, Raise e)
  | Some (self1, env1, Ok _) =>
      let self2 := queue_join (during_join late) self1 in
      let eeg_data :=
        np_zeros (length channelMask + 1) (length (output_queue self2)) in
      let self3 := decryptor_steps (before_range late) self2 in
      let '(q, r) :=
        parse_frames (slices self3) channelMask 0 (output_queue self3)
                     eeg_data in
      let self4 :=
        decryptor_steps (during_parse late)
                        (set_queues (input_queue self3) q self3) in
      Some (self4, env1,
            eeg ← r;
            saved ← save_matlab eeg channelMask savePrefix;
            Ok (eeg, saved))
  end.

(** [getContactQuality(electrode)]; [None] is Python's [None]. *)
Definition getContactQuality (self : EPOC) (electrode : string) : option Z :=
  quality self !! electrode.

End Pipeline.

(** ** Specification vocabulary *)

(** The integer a bit range of a frame holds. *)
Definition field (s : slice) (bits : bit_frame) : Z :=
  bits_value (bit_slice s bits).

(** The frame layout: 32 bytes. *)
Definition frame_bits : nat := 256.

Section Environment.

Variable decrypt : string → raw_frame → option bit_frame.
Variable key : string.

(** The decoded frames a tick contributes to the output queue. *)
Definition tick_frames (t : tick) : list bit_frame :=
  match outcome t with
  | ReadOk raw => option_list (decrypt key raw)
  | USBError _ | ReadIOError _ => []
  end.

(** The decoded frames of a run of ticks, in submission order. *)
Definition decoded (env : list tick) : list bit_frame :=
  env ≫= tick_frames.

(** Whether the frame read at a tick fails to decrypt. *)
Definition is_fault (t : tick) : bool :=
  match outcome t with
  | ReadOk raw => bool_decide (decrypt key raw = None)
  | USBError _ | ReadIOError _ => false
  end.

(** The number of frames of a run of ticks that fail to decrypt. *)
Definition faults (env : list tick) : nat :=
  length (filter (λ t, is_fault t = true) env).

(** Normal operation: every read returns a frame, every frame that
    decrypts has the full 256 bits, and the worker keeps up with the
    reader (the first process handles the frame just submitted before
    the next poll). *)
Definition steady_tick (t : tick) : Prop :=
  (∃ raw, outcome t = ReadOk raw ∧
          ∀ bits, decrypt key raw = Some bits → length bits = frame_bits) ∧
  0 ∈ worker_steps t.

Definition steady (env : list tick) : Prop := Forall steady_tick env.

(** A session with one worker, started with [key], with the tables of
    [__init__] and nothing in flight. *)
Definition ready (self : EPOC) : Prop :=
  workers self = [key] ∧
  slices self = slices_table ∧
  sampling_rate self = 128%Z ∧
  input_queue self = [] ∧
  output_queue self = [].

End Environment.

(** The sessions a program can reach: construction, then any sequence of
    [setupEncryption] and [acquireData] calls. *)
Inductive reachable (decrypt : string → raw_frame → option bit_frame)
    (sn : string) : EPOC → Prop :=
  | reach_init : reachable decrypt sn (EPOC_init sn)
  | reach_setup self research self' :
      reachable decrypt sn self →
      setupEncryption self research = Ok self' →
      reachable decrypt sn self'
  | reach_acquire self env late duration mask savePrefix self' env' r :
      reachable decrypt sn self →
      acquireData decrypt env late self duration mask savePrefix
        = Some (self', env', r) →
      reachable decrypt sn self'.

(** Two sessions that differ at most in their queues. *)
Definition same_but_queues (self self' : EPOC) : Prop :=
  self' = set_queues (input_queue self') (output_queue self') self.

(** ** Example instances *)

(** A bench cipher that leaves frames in plaintext: 32-byte frames
    decode to their own bits, anything else fails to decrypt. *)
Definition bits_of_byte (b : Byte.byte) : list bool :=
  let '(b0, (b1, (b2, (b3, (b4, (b5, (b6, b7))))))) := Byte.to_bits b in
  [b7; b6; b5; b4; b3; b2; b1; b0].

Definition plaintext_decrypt (_ : string) (raw : raw_frame)
    : option bit_frame :=
  if decide (length raw = 32) then Some (raw ≫= bits_of_byte) else None.

(** A 32-byte frame that starts with the byte [b], and a short (corrupt)
    read. *)
Definition bench_frame (b : Byte.byte) : raw_frame :=
  b :: replicate 31 Byte.x41.

Definition short_frame : raw_frame := [Byte.x00].

Definition bench_serial : string := "SN20120229000459".

(** The session after [__init__] and [setupEncryption()] on the bench
    serial number. *)
Definition bench_session : EPOC :=
  match setupEncryption (EPOC_init bench_serial) true with
  | Ok self => self
  | Raise _ => EPOC_init bench_serial
  end.

(** One second of frames, the worker keeping up. *)
Definition bench_second : list tick :=
  (λ b, Tick (ReadOk (bench_frame b)) [0]) <$> replicate 128 Byte.x07.

(** The worker idle after the loop, and the worker granted a step at
    each of the three points after the loop. *)
Definition idle_late : late_steps := LateSteps [] [] [].
Definition busy_late : late_steps := LateSteps [0] [0] [0].


(** The claim that the two variants' keys differ only at even indices,
    read on the eight fixed bytes and on the sixteen key positions. *)
Definition fixed_bytes_differ_only_at_even : Prop :=
  ∀ j, research_bytes !! j ≠ consumer_bytes !! j → Nat.Even j.

Definition keys_differ_only_at_even (sn : string) : Prop :=
  ∀ kr kc i,
    derive_key sn true = Ok kr → derive_key sn false = Ok kc →
    String.get i kr ≠ String.get i kc → Nat.Even i.

(** The layout of the two keys of a serial number: serial characters
    15, 14, 13, 12 (twice over) at the even positions, the variant's
    eight fixed bytes at the odd positions. *)
Definition key_layout (sn kr kc : string) : Prop :=
  String.length kr = 16 ∧ String.length kc = 16 ∧
  (∀ j, j < 8 →
     String.get (2 * j) kr = String.get (15 - j mod 4) sn ∧
     String.get (2 * j) kc = String.get (15 - j mod 4) sn ∧
     String.get (2 * j + 1) kr = research_bytes !! j ∧
     String.get (2 * j + 1) kc = consumer_bytes !! j).

(** A bit range that a frame covers with at least one bit. *)
Definition field_ok (s : slice) (bits : bit_frame) : Prop :=
  start s < stop s ∧ start s < length bits.

(** The matrix row of a bit range while the matrix is being filled: the
    field values of the frames handled so far, then the zeros of
    [np.zeros] up to [n] columns. *)
Definition partial_row (handled : list bit_frame) (n : nat) (s : slice)
    : list Z :=
  (field s <$> handled) ++ replicate (n - length handled) 0%Z.

(** The bit ranges a channel mask names, in mask order. *)
Definition mask_slices (tbl : gmap string slice) (mask : list string)
    (ss : list slice) : Prop :=
  Forall2 (λ ch s, tbl !! ch = Some s) mask ss.

(** The key [setupEncryption()] derives for the bench serial number. *)
Definition bench_key : string :=
  match derive_key bench_serial true with
  | Ok k => k
  | Raise _ => ""
  end.

(** A lossy second: two corrupt reads among the 128 good frames. *)
Definition lossy_second : list tick :=
  Tick (ReadOk short_frame) [0] :: take 64 bench_second
    ++ Tick (ReadOk short_frame) [0] :: drop 64 bench_second.


(** The claim that an electrode the cycle never named at an observed
    sequence number has no contact quality. *)
Definition unseen_electrodes_have_no_quality (self : EPOC)
    (observed : list Z) : Prop :=
  ∀ electrode,
    (∀ sq, sq ∈ observed →
       cqOrder self !! Z.to_nat (sq mod 128) ≠ Some (Some electrode)) →
    getContactQuality self electrode = None.

(** The decoded bench frame, and the session an acquisition with an
    unknown channel name leaves behind: the first decoded frame is
    gone, the other 127 are still on the output queue. *)
Definition bench_bits : bit_frame := bench_frame Byte.x07 ≫= bits_of_byte.

Definition stale_session : EPOC :=
  set_queues [] (replicate 127 bench_bits) bench_session.

(** A second in which the worker misses the first poll and is one frame
    behind from then on. *)
Definition lagging_second : list tick :=
  Tick (ReadOk (bench_frame Byte.x07)) [] :: bench_second.

(** ** The rest of [__init__] and the command-line entry point *)

(** [d.update(dict(pairs))] on a dictionary with integer keys. *)
Definition dict_update {V} (d : gmap Z V) (pairs : list (Z * V)) : gmap Z V :=
  fold_left (λ m kv, <[kv.1 := kv.2]> m) pairs d.

(** [self.battery_levels], statement by statement: the literal, then
    100 for the bit values 248..255, then 0 for 128..225. *)
Definition battery_literal : gmap Z Z :=
  dict_update ∅
    [(247, 99); (246, 97); (245, 93); (244, 89); (243, 85);
     (242, 82); (241, 77); (240, 72); (239, 66); (238, 62);
     (237, 55); (236, 46); (235, 32); (234, 20); (233, 12);
     (232, 6); (231, 4); (230, 3); (229, 2); (228, 1);
     (227, 1); (226, 1)]%Z.

Definition battery_full : gmap Z Z :=
  dict_update battery_literal ((λ k, (k, 100%Z)) <$> seqZ 248 (256 - 248)).

Definition battery_levels_table : gmap Z Z :=
  dict_update battery_full ((λ k, (k, 0%Z)) <$> seqZ 128 (226 - 128)).

(** The convenience attributes
    [dict((v, k) for k, v in enumerate(self.channels))]: each channel
    name becomes an attribute that holds the channel's index. *)
Definition channel_attributes : gmap string nat :=
  dict (imap (λ k v, (v, k)) channel_names).

(** The loop of the entry point over row 0 of the matrix:
    [cnt += ((int(seq[i]) + 1) % 128) - int(seq[i+1])]. *)
Fixpoint packets_dropped (cnt : Z) (seqs : list Z) : Z :=
  match seqs with
  | a :: (b :: _) as rest =>
      packets_dropped (cnt + ((a + 1) `mod` 128 - b))%Z rest
  | _ => cnt
  end.

(** Two bit ranges that share no bit. *)
Definition disjoint_slices (s1 s2 : slice) : Prop :=
  stop s1 ≤ start s2 ∨ stop s2 ≤ start s1.

(** A matrix of [rows] rows of [cols] entries each. *)
Definition mat_shape (rows cols : nat) (m : matrix) : Prop :=
  length m = rows ∧ Forall (λ row, length row = cols) m.

(** The two ways the parser can fail on a frame: a looked-up name
    (the sequence-number key or a name of the mask) is not a key of the
    table, or a bit range has no bit inside the frame. *)
Definition parse_failure (tbl : gmap string slice) (mask : list string)
    (e : exn) : Prop :=
  (∃ k, e = KeyError k ∧ (k = "SEQ#" ∨ k ∈ mask) ∧ tbl !! k = None) ∨
  e = InterpretError.

(** A tick whose read returns a frame. *)
Definition read_ok (t : tick) : Prop := ∃ raw, outcome t = ReadOk raw.

(** The shortest run of ticks at the head of a script that decodes to
    [n] frames (each tick decodes to one frame or to none). *)
Fixpoint reads_for (decrypt : string → raw_frame → option bit_frame)
    (key : string) (n : nat) (env : list tick) : list tick :=
  match n, env with
  | O, _ => []
  | S _, [] => []
  | S _, t :: env' =>
      t :: reads_for decrypt key (n - length (tick_frames decrypt key t)) env'
  end.

(** The session after a call that returned: both queues empty. *)
Definition drained (self : EPOC) : EPOC := set_queues [] [] self.

(** ** The claims about the acquisition, read on one call *)







(** The worker finishing one frame while [join()] waits, and the worker
    finishing one frame between the two [qsize()] calls that follow. *)
Definition join_late : late_steps := LateSteps [0] [] [].
Definition range_late : late_steps := LateSteps [] [0] [].


(** The exception that a failed read ends the loop with. *)
Definition read_failure (r : read_result) (e : exn) : Prop :=
  (∃ errno, r = USBError errno ∧ e = usb_error_handler errno) ∨
  (∃ errno, r = ReadIOError errno ∧ e = IOError errno).
(** * Properties *)

(** ** The protocol tables *)

Lemma cqOrder_gap_block :
  take 48 (drop 16 cqOrder_table) = replicate 48 None.
Proof. reflexivity. Qed.

(** C1: the contact-quality cycle built by [__init__] has the gap of
    "unknown" entries at indices 16..63, repeats its first sixteen
    entries at 64..79 and fills 80..127 with twelve copies of the block
    at 80..83; but the twelve copies appended after the single "FC6"
    run one entry past index 127, so the list has 129 entries and not
    128: the last one, at index 128, is "FC6". *)
Theorem cqOrder_has_129_entries (sn : string) :
  length (cqOrder (EPOC_init sn)) = 129 ∧
  (∀ i, 16 ≤ i < 64 → cqOrder (EPOC_init sn) !! i = Some None) ∧
  take 16 (cqOrder (EPOC_init sn)) = take 16 (drop 64 (cqOrder (EPOC_init sn))) ∧
  take 48 (drop 80 (cqOrder (EPOC_init sn)))
    = list_times (take 4 (drop 80 (cqOrder (EPOC_init sn)))) 12 ∧
  cqOrder (EPOC_init sn) !! 80 = Some (Some "FC6") ∧
  drop 128 (cqOrder (EPOC_init sn)) = [Some "FC6"].
Proof.
  simpl. repeat split; try reflexivity.
  intros i [Hlo Hhi].
  replace i with (16 + (i - 16)) by lia.
  rewrite <- lookup_drop.
  rewrite <- (lookup_take_lt _ 48) by lia.
  rewrite cqOrder_gap_block.
  apply lookup_replicate_2. lia.
Qed.

(** C9: the key "GYROX" is written twice, first with bits [233,240) and
    then with bits [240,248); the second value replaces the first, no
    key "GYROY" exists, and the finished table is the one the second
    assignment alone would have built: no entry holds [233,240). *)
Theorem gyrox_assigned_twice (sn : string) :
  slices_gyro_first !! "GYROX" = Some (Slice 233 240) ∧
  slices_gyro_second !! "GYROX" = Some (Slice 240 248) ∧
  slices (EPOC_init sn) !! "GYROX" = Some (Slice 240 248) ∧
  slices (EPOC_init sn) !! "GYROY" = None ∧
  slices (EPOC_init sn)
    = <["SEQ#" := Slice 0 8]> (<["GYROX" := Slice 240 248]> slices_channels) ∧
  (∀ k, slices (EPOC_init sn) !! k ≠ Some (Slice 233 240)).
Proof.
  simpl. split_and!.
  - apply lookup_insert_eq.
  - apply lookup_insert_eq.
  - reflexivity.
  - reflexivity.
  - unfold slices_table, slices_gyro_second, slices_gyro_first.
    by rewrite insert_insert_eq.
  - intros k Hk.
    assert (Hall : map_Forall (λ _ s, s ≠ Slice 233 240) slices_table)
      by (apply (bool_decide_unpack _); vm_compute; exact I).
    by apply (Hall k _ Hk).
Qed.

(** ** Key derivation *)

Lemma string_length_16 (s : string) :
  String.length s = 16 →
  ∃ c0 c1 c2 c3 c4 c5 c6 c7 c8 c9 c10 c11 c12 c13 c14 c15,
    s = string_of_list_ascii
          [c0; c1; c2; c3; c4; c5; c6; c7; c8; c9; c10; c11; c12; c13; c14; c15].
Proof.
  intros H.
  do 16 (destruct s as [|? s]; [discriminate H|]; simpl in H;
         apply Nat.succ_inj in H).
  destruct s; [|discriminate H].
  by repeat eexists.
Qed.

(** C2 (as amended): for every 16-character serial number both variants
    of the key derivation return a 16-character key; its even positions
    0, 2, ..., 14 hold the serial characters 15, 14, 13, 12, each used
    twice, and its odd positions hold the variant's eight fixed bytes.
    The research and the consumer key agree at every even position and
    at positions 1, 13 and 15; they differ exactly at the odd positions
    3, 5, 7, 9 and 11. *)
Theorem derive_key_layout (sn : string) :
  String.length sn = 16 →
  ∃ kr kc,
    derive_key sn true = Ok kr ∧ derive_key sn false = Ok kc ∧
    key_layout sn kr kc ∧
    (∀ i, String.get i kr ≠ String.get i kc ↔ i ∈ [3; 5; 7; 9; 11]).
Proof.
  intros Hlen.
  destruct (string_length_16 sn Hlen)
    as (c0&c1&c2&c3&c4&c5&c6&c7&c8&c9&c10&c11&c12&c13&c14&c15&->).
  eexists _, _. unfold key_layout. split_and!; try reflexivity.
  - intros j Hj.
    do 8 (destruct j as [|j]; [by split_and!|]). lia.
  - intros i.
    do 16 (destruct i as [|i];
           [simpl; rewrite !elem_of_cons, elem_of_nil;
            split; [intros Hne; try (by exfalso; apply Hne); naive_solver lia
                   | intros Hin Heq; try discriminate Heq; lia] |]).
    simpl. rewrite !elem_of_cons, elem_of_nil. split; [done | lia].
Qed.

Lemma derive_key_layout_witness :
  ∃ kr kc,
    derive_key bench_serial true = Ok kr ∧
    derive_key bench_serial false = Ok kc ∧
    key_layout bench_serial kr kc ∧
    (∀ i, String.get i kr ≠ String.get i kc ↔ i ∈ [3; 5; 7; 9; 11]).
Proof. apply (derive_key_layout bench_serial). reflexivity. Defined.

(** C2, as stated, fails: the second fixed byte (index 1, key position
    3) is 0x54 in the research key and 0x48 in the consumer key, so the
    variants do not differ only at even indices, whether indices count
    the fixed bytes or the key positions. *)
Lemma keys_differ_at_odd_index :
  ¬ fixed_bytes_differ_only_at_even ∧
  ¬ keys_differ_only_at_even bench_serial.
Proof.
  split.
  - intros H. specialize (H 1).
    destruct H as [k Hk]; [discriminate | lia].
  - intros H.
    destruct (H _ _ 3 eq_refl eq_refl) as [k Hk]; [discriminate | lia].
Qed.

(** ** What [acquireData] leaves alone *)

(** ** What [acquireData] leaves alone *)

Lemma set_queues_id (self : EPOC) :
  set_queues (input_queue self) (output_queue self) self = self.
Proof. by destruct self. Qed.

Lemma same_but_queues_refl (self : EPOC) : same_but_queues self self.
Proof. unfold same_but_queues. by rewrite set_queues_id. Qed.

Lemma same_but_queues_set inq outq (self : EPOC) :
  same_but_queues self (set_queues inq outq self).
Proof. reflexivity. Qed.

Lemma same_but_queues_trans (a b c : EPOC) :
  same_but_queues a b → same_but_queues b c → same_but_queues a c.
Proof. unfold same_but_queues. intros Hab Hbc. rewrite Hbc, Hab. reflexivity. Qed.

Lemma same_but_queues_fields (self self' : EPOC) :
  same_but_queues self self' →
  packetLoss self' = packetLoss self ∧
  counter self' = counter self ∧
  battery self' = battery self ∧
  gyroX self' = gyroX self ∧
  gyroY self' = gyroY self ∧
  quality self' = quality self ∧
  slices self' = slices self.
Proof. intros ->. by split_and!. Qed.

Section PipelineFacts.

Variable decrypt : string → raw_frame → option bit_frame.

Lemma decryptor_step_frame (i : nat) (self : EPOC) :
  same_but_queues self (decryptor_step decrypt i self).
Proof.
  unfold decryptor_step.
  destruct (workers self !! i) as [k|]; [|apply same_but_queues_refl].
  destruct (input_queue self) as [|raw inq]; [apply same_but_queues_refl|].
  destruct (decrypt k raw); apply same_but_queues_set.
Qed.

Lemma decryptor_steps_frame (run : steps) (self : EPOC) :
  same_but_queues self (decryptor_steps decrypt run self).
Proof.
  revert self. induction run as [|i run IH]; intros self; simpl.
  - apply same_but_queues_refl.
  - eapply same_but_queues_trans; [apply decryptor_step_frame | apply IH].
Qed.

Lemma acquire_loop_frame (env : list tick) :
  ∀ self total self' env' r,
    acquire_loop decrypt env self total = Some (self', env', r) →
    same_but_queues self self'.
Proof.
  induction env as [|t env IH]; intros self total self' env' r; simpl.
  - destruct (Qeq_bool _ _); [|discriminate].
    intros [= <- <- <-]. apply same_but_queues_refl.
  - destruct (Qeq_bool _ _).
    { intros [= <- <- <-]. apply same_but_queues_refl. }
    destruct (outcome t) as [raw|errno|errno].
    + intros Hloop. apply IH in Hloop.
      eapply same_but_queues_trans; [|exact Hloop].
      eapply same_but_queues_trans; [|apply decryptor_steps_frame].
      apply same_but_queues_set.
    + intros [= <- <- <-]. apply same_but_queues_refl.
    + intros [= <- <- <-]. apply same_but_queues_refl.
Qed.

Lemma acquireData_frame env late self duration mask savePrefix self' env' r :
  acquireData decrypt env late self duration mask savePrefix
    = Some (self', env', r) →
  same_but_queues self self'.
Proof.
  unfold acquireData.
  destruct (acquire_loop _ _ _ _) as [[[self1 env1] [[]|e]]|] eqn:Hloop;
    [| |discriminate].
  - destruct (parse_frames _ _ _ _ _) as [q r'].
    intros [= <- <- <-].
    apply acquire_loop_frame in Hloop.
    eapply same_but_queues_trans; [exact Hloop|].
    eapply same_but_queues_trans; [apply decryptor_steps_frame|].
    eapply same_but_queues_trans; [apply decryptor_steps_frame|].
    eapply same_but_queues_trans; [|apply decryptor_steps_frame].
    apply same_but_queues_set.
  - intros [= <- <- <-]. by apply acquire_loop_frame in Hloop.
Qed.

Lemma setupEncryption_tables self research self' :
  setupEncryption self research = Ok self' →
  slices self' = slices self ∧ quality self' = quality self.
Proof.
  unfold setupEncryption.
  destruct (derive_key _ _); simpl; [|discriminate].
  by intros [= <-].
Qed.

Lemma reachable_tables sn self :
  reachable decrypt sn self →
  slices self = slices_table ∧ quality self = quality_table.
Proof.
  induction 1 as [|self research self' _ IH Hset
                  |self env late d mask sp self' env' r _ IH Hacq].
  - done.
  - apply setupEncryption_tables in Hset as [-> ->]. exact IH.
  - apply acquireData_frame, same_but_queues_fields in Hacq.
    destruct Hacq as (_&_&_&_&_&->&->). exact IH.
Qed.

End PipelineFacts.

(** ** The acquisition loop in normal operation *)

(** The poll [qsize() != totalSamples] when [totalSamples] is the whole
    number [tz]. *)
Lemma poll_whole (len : nat) (total : Q) (tz : Z) :
  (total == inject_Z tz)%Q →
  Qeq_bool (inject_Z (Z.of_nat len)) total = true ↔ Z.of_nat len = tz.
Proof.
  intros Htotal. rewrite Qeq_bool_iff, Htotal. split.
  - apply inject_Z_injective.
  - by intros ->.
Qed.

Lemma poll_true (len : nat) (total : Q) (tz : Z) :
  (total == inject_Z tz)%Q → Z.of_nat len = tz →
  Qeq_bool (inject_Z (Z.of_nat len)) total = true.
Proof. intros Htotal Hlen. by apply (poll_whole len total tz). Qed.

Lemma poll_false (len : nat) (total : Q) (tz : Z) :
  (total == inject_Z tz)%Q → Z.of_nat len ≠ tz →
  Qeq_bool (inject_Z (Z.of_nat len)) total = false.
Proof.
  intros Htotal Hlen. apply not_true_is_false.
  by rewrite (poll_whole len total tz).
Qed.

Section SteadyFacts.

Variable decrypt : string → raw_frame → option bit_frame.
Variable key : string.

Lemma decryptor_steps_idle (run : steps) (self : EPOC) :
  input_queue self = [] → decryptor_steps decrypt run self = self.
Proof.
  intros Hin. induction run as [|i run IH]; simpl; [done|].
  unfold decryptor_step. rewrite Hin.
  by destruct (workers self !! i).
Qed.

Lemma decryptor_step_no_worker (i : nat) (self : EPOC) :
  workers self !! i = None → decryptor_step decrypt i self = self.
Proof. unfold decryptor_step. by intros ->. Qed.

Lemma keep_up (self : EPOC) (raw : raw_frame) (run : steps) :
  workers self = [key] →
  input_queue self = [] →
  0 ∈ run →
  decryptor_steps decrypt run (input_put raw self)
    = set_queues [] (output_queue self ++ option_list (decrypt key raw)) self.
Proof.
  intros Hkey Hin. induction run as [|i run IH]; intros Hrun.
  - by apply elem_of_nil in Hrun.
  - cbn [decryptor_steps]. destruct i as [|i].
    + unfold decryptor_step. simpl. rewrite Hkey, Hin. simpl.
      destruct (decrypt key raw) as [bits|]; simpl;
        rewrite decryptor_steps_idle by done; [done|].
      by rewrite app_nil_r.
    + apply elem_of_cons in Hrun as [?|Hrun]; [done|].
      rewrite decryptor_step_no_worker by (simpl; by rewrite Hkey).
      by apply IH.
Qed.

Lemma decoded_cons (t : tick) (env : list tick) :
  decoded decrypt key (t :: env)
    = tick_frames decrypt key t ++ decoded decrypt key env.
Proof. reflexivity. Qed.

Lemma decoded_app (env1 env2 : list tick) :
  decoded decrypt key (env1 ++ env2)
    = decoded decrypt key env1 ++ decoded decrypt key env2.
Proof. unfold decoded. apply bind_app. Qed.

(** Every read either yields a decoded frame or is a fault. *)
Lemma reads_decoded_faults (env : list tick) :
  steady decrypt key env →
  length env = length (decoded decrypt key env) + faults decrypt key env.
Proof.
  unfold faults. induction 1 as [|t env [(raw & Hraw & _) _] _ IH]; [done|].
  assert (Hf : is_fault decrypt key t = bool_decide (decrypt key raw = None))
    by (unfold is_fault; by rewrite Hraw).
  rewrite decoded_cons, length_app, filter_cons.
  unfold tick_frames. rewrite Hraw.
  case_decide as Hd; rewrite Hf, bool_decide_eq_true in Hd;
    destruct (decrypt key raw) as [bits|]; simpl; try done; lia.
Qed.

Lemma decoded_frame_bits (env : list tick) (bits : bit_frame) :
  steady decrypt key env →
  bits ∈ decoded decrypt key env → length bits = frame_bits.
Proof.
  induction 1 as [|t env [(raw & Hraw & Hlen) _] _ IH]; [by intros ?%elem_of_nil|].
  rewrite decoded_cons, elem_of_app. intros [Hin|Hin]; [|by apply IH].
  unfold tick_frames in Hin. rewrite Hraw in Hin.
  destruct (decrypt key raw) as [b|] eqn:Hd; simpl in Hin.
  - apply list_elem_of_singleton in Hin as ->. by apply Hlen.
  - by apply elem_of_nil in Hin.
Qed.

Lemma tick_frames_steady (t : tick) :
  steady_tick decrypt key t →
  ∃ raw, outcome t = ReadOk raw ∧ 0 ∈ worker_steps t ∧
         tick_frames decrypt key t = option_list (decrypt key raw) ∧
         length (tick_frames decrypt key t) ≤ 1.
Proof.
  intros [(raw & Hraw & _) Hws]. exists raw. unfold tick_frames.
  rewrite Hraw. split_and!; [done..|].
  destruct (decrypt key raw); simpl; lia.
Qed.

Lemma reads_for_take (env : list tick) :
  ∀ n, reads_for decrypt key n env
       = take (length (reads_for decrypt key n env)) env.
Proof.
  induction env as [|t env IH]; intros [|n]; simpl; [done..|].
  f_equal. apply IH.
Qed.

Lemma reads_for_split (n : nat) (env : list tick) :
  env = reads_for decrypt key n env
          ++ drop (length (reads_for decrypt key n env)) env.
Proof. rewrite (reads_for_take env n) at 1. by rewrite take_drop. Qed.

Lemma reads_for_steady (n : nat) (env : list tick) :
  steady decrypt key env → steady decrypt key (reads_for decrypt key n env).
Proof. intros Hst. rewrite reads_for_take. by apply Forall_take. Qed.

(** The loop reads exactly the shortest run of ticks that brings the
    output queue to [totalSamples] frames. *)
Lemma acquire_loop_reads_for (total : Q) (env : list tick) :
  ∀ self n,
    workers self = [key] →
    input_queue self = [] →
    steady decrypt key env →
    (total == inject_Z (Z.of_nat (length (output_queue self) + n)))%Q →
    n ≤ length (decoded decrypt key env) →
    acquire_loop decrypt env self total
      = Some (set_queues []
                (output_queue self
                   ++ decoded decrypt key (reads_for decrypt key n env))
                self,
              drop (length (reads_for decrypt key n env)) env, Ok ()) ∧
    length (decoded decrypt key (reads_for decrypt key n env)) = n.
Proof.
  induction env as [|t env IH]; intros self n Hkey Hin Hst Htotal Hn.
  - simpl in Hn. assert (n = 0) as -> by lia. simpl.
    rewrite (poll_true _ _ _ Htotal) by (f_equal; lia).
    by rewrite app_nil_r, <- Hin, set_queues_id.
  - destruct n as [|n].
    + simpl. rewrite (poll_true _ _ _ Htotal) by (f_equal; lia).
      by rewrite app_nil_r, <- Hin, set_queues_id.
    + apply Forall_cons in Hst as [Ht Hst].
      destruct (tick_frames_steady t Ht) as (raw & Hraw & Hws & Htf & Hone).
      rewrite decoded_cons, length_app in Hn.
      cbn [acquire_loop reads_for].
      rewrite (poll_false _ _ _ Htotal) by lia. rewrite Hraw.
      rewrite keep_up by done. rewrite <- Htf.
      set (fr := tick_frames decrypt key t) in *.
      destruct (IH (set_queues [] (output_queue self ++ fr) self)
                   (S n - length fr)) as [Hloop Hlen]; try done.
      * simpl. rewrite length_app. rewrite Htotal.
        f_equiv. f_equal. lia.
      * lia.
      * simpl in Hloop. rewrite Hloop. split.
        -- by rewrite decoded_cons, app_assoc.
        -- rewrite decoded_cons, length_app, Hlen. fold fr. lia.
Qed.

(** More frames than [n1] take the reads for [n1] and then the reads
    for the remainder. *)
Lemma reads_for_add (n2 : nat) (env : list tick) :
  ∀ n1,
    steady decrypt key env →
    n1 ≤ length (decoded decrypt key env) →
    reads_for decrypt key (n1 + n2) env
      = reads_for decrypt key n1 env
          ++ reads_for decrypt key n2
               (drop (length (reads_for decrypt key n1 env)) env).
Proof.
  induction env as [|t env IH]; intros n1 Hst Hn1.
  - simpl in Hn1. by assert (n1 = 0) as -> by lia.
  - destruct n1 as [|n1]; [done|].
    apply Forall_cons in Hst as [Ht Hst].
    destruct (tick_frames_steady t Ht) as (_ & _ & _ & _ & Hone).
    rewrite decoded_cons, length_app in Hn1.
    cbn [reads_for Nat.add length drop app].
    replace (S (n1 + n2) - length (tick_frames decrypt key t))
      with ((S n1 - length (tick_frames decrypt key t)) + n2) by lia.
    rewrite IH by (done || lia). done.
Qed.


End SteadyFacts.
(** ** The frame parser *)

Lemma uint_field (s : slice) (bits : bit_frame) :
  field_ok s bits → uint (bit_slice s bits) = Ok (field s bits).
Proof.
  intros [Hlt Hlen]. unfold field, bit_slice.
  destruct (stop s - start s) as [|k] eqn:Hk; [lia|].
  destruct (drop (start s) bits) as [|b rest] eqn:Hd; [|done].
  apply (f_equal length) in Hd. rewrite length_drop in Hd. simpl in Hd. lia.
Qed.

Lemma length_partial_row (P : list bit_frame) (n : nat) (s : slice) :
  length P ≤ n → length (partial_row P n s) = n.
Proof.
  intros Hle. unfold partial_row.
  rewrite length_app, length_fmap, length_replicate. lia.
Qed.

Lemma partial_row_insert (P : list bit_frame) (n : nat) (s : slice) bits :
  length P < n →
  <[length P := field s bits]> (partial_row P n s)
    = partial_row (P ++ [bits]) n s.
Proof.
  intros Hlt. unfold partial_row.
  rewrite insert_app_r_alt by (rewrite length_fmap; lia).
  rewrite length_fmap, Nat.sub_diag, length_app. simpl.
  replace (n - length P) with (S (n - (length P + 1))) by lia. simpl.
  by rewrite fmap_app, <- app_assoc.
Qed.

Lemma partial_row_done (q : list bit_frame) (s : slice) :
  partial_row q (length q) s = field s <$> q.
Proof. unfold partial_row. by rewrite Nat.sub_diag, app_nil_r. Qed.

Lemma np_zeros_partial_rows (ss : list slice) (n : nat) :
  np_zeros (length ss) n = partial_row [] n <$> ss.
Proof.
  unfold np_zeros, partial_row. simpl. rewrite Nat.sub_0_r.
  induction ss as [|s ss IH]; simpl; [done|]. by rewrite IH.
Qed.

Lemma result_bind_Ok {A B} (a : A) (k : A → result B) : Ok a ≫= k = k a.
Proof. reflexivity. Qed.

Lemma dict_get_Some {V} (d : gmap string V) (k : string) (v : V) :
  d !! k = Some v → dict_get d k = Ok v.
Proof. unfold dict_get. by intros ->. Qed.


Lemma mat_set_middle (rows : matrix) (row : list Z) (tail : matrix) i j v :
  length rows = i → j < length row →
  mat_set (rows ++ row :: tail) i j v = Ok (rows ++ <[j := v]> row :: tail).
Proof.
  intros <- Hj. unfold mat_set.
  rewrite list_lookup_middle by done.
  rewrite decide_True by done.
  by rewrite <- (Nat.add_0_r (length rows)), insert_app_r.
Qed.

Section ParserFacts.

Variable tbl : gmap string slice.
Variable n : nat.

(** One pass over the mask writes column [length P] of the rows below
    [done]; rows past the mask are left alone. *)
Lemma fill_channels_rows (P : list bit_frame) (bits : bit_frame) :
  length P < n →
  ∀ mask ss, mask_slices tbl mask ss →
  Forall (λ s, field_ok s bits) ss →
  ∀ i done tail,
    length done = S i →
    fill_channels tbl bits (length P) i mask
        (done ++ (partial_row P n <$> ss) ++ tail)
      = Ok (done ++ (partial_row (P ++ [bits]) n <$> ss) ++ tail).
Proof.
  intros Hlt mask ss Hms.
  induction Hms as [|ch s mask ss Hch _ IH]; intros Hok i done tail Hdone.
  - done.
  - apply Forall_cons in Hok as [Hs Hok].
    cbn [fill_channels]. rewrite !fmap_cons, <- !app_comm_cons.
    rewrite (dict_get_Some _ _ _ Hch), result_bind_Ok.
    rewrite uint_field, result_bind_Ok by done.
    rewrite mat_set_middle, result_bind_Ok
      by (done || rewrite length_partial_row; lia).
    rewrite partial_row_insert by done.
    rewrite (cons_middle _ done), app_assoc.
    rewrite (IH Hok (S i) (done ++ [_]) tail)
      by (rewrite length_app; simpl; lia).
    by rewrite <- app_assoc.
Qed.

(** Handling one frame: the sequence-number row first, then the mask. *)
Lemma parse_frame_rows (P : list bit_frame) (bits : bit_frame) sq mask ss tail :
  length P < n →
  tbl !! "SEQ#" = Some sq →
  field_ok sq bits →
  parse_frame tbl mask (length P) bits
      (partial_row P n sq :: (partial_row P n <$> ss) ++ tail)
    = fill_channels tbl bits (length P) 0 mask
        ([partial_row (P ++ [bits]) n sq] ++ (partial_row P n <$> ss) ++ tail).
Proof.
  intros Hlt Hsq Hs.
  unfold parse_frame.
  rewrite (dict_get_Some _ _ _ Hsq), result_bind_Ok.
  rewrite uint_field, result_bind_Ok by done.
  rewrite <- (app_nil_l (partial_row P n sq :: _)).
  rewrite (mat_set_middle [] _ _ 0), result_bind_Ok
    by (done || rewrite length_partial_row; lia).
  by rewrite partial_row_insert.
Qed.

(** The [for spl] loop turns the zero matrix into the matrix of the
    frames' fields, column by column, and empties the queue. *)
Lemma parse_frames_rows sq mask ss :
  tbl !! "SEQ#" = Some sq →
  mask_slices tbl mask ss →
  ∀ q P,
    length P + length q = n →
    Forall (λ bits, Forall (λ s, field_ok s bits) (sq :: ss)) q →
    parse_frames tbl mask (length P) q (partial_row P n <$> sq :: ss)
      = ([], Ok (partial_row (P ++ q) n <$> sq :: ss)).
Proof.
  intros Hsq Hms q.
  induction q as [|bits q IH]; intros P Hn Hok.
  - by rewrite app_nil_r.
  - apply Forall_cons in Hok as [Hbits Hok]. simpl in Hn.
    apply Forall_cons in Hbits as [Hb Hbits].
    cbn [parse_frames]. rewrite fmap_cons.
    rewrite <- (app_nil_r (partial_row P n <$> ss)).
    rewrite (parse_frame_rows P bits sq mask ss []) by (done || lia).
    rewrite (fill_channels_rows P bits) by (done || lia).
    rewrite app_nil_r.
    replace (S (length P)) with (length (P ++ [bits]))
      by (rewrite length_app; simpl; lia).
    change ([partial_row (P ++ [bits]) n sq]
              ++ (partial_row (P ++ [bits]) n <$> ss))
      with (partial_row (P ++ [bits]) n <$> sq :: ss).
    rewrite IH by (done || rewrite length_app; simpl; lia).
    by rewrite <- app_assoc.
Qed.

End ParserFacts.

(** ** Acquisition in normal operation *)

Lemma table_slices_in_frame :
  map_Forall (λ _ s, start s < stop s ≤ frame_bits) slices_table.
Proof. apply (bool_decide_unpack _). vm_compute. exact I. Qed.

Lemma table_field_ok (ch : string) (s : slice) (bits : bit_frame) :
  slices_table !! ch = Some s → length bits = frame_bits → field_ok s bits.
Proof.
  intros Hs Hlen. apply table_slices_in_frame in Hs. simpl in Hs.
  unfold field_ok. lia.
Qed.

Lemma mask_slices_exist (tbl : gmap string slice) (mask : list string) :
  Forall (λ ch, is_Some (tbl !! ch)) mask → ∃ ss, mask_slices tbl mask ss.
Proof.
  induction 1 as [|ch mask [s Hs] _ [ss IH]].
  - exists []. constructor.
  - exists (s :: ss). by constructor.
Qed.

Lemma mask_slices_field_ok (mask : list string) (ss : list slice) bits :
  mask_slices slices_table mask ss → length bits = frame_bits →
  Forall (λ s, field_ok s bits) ss.
Proof.
  intros Hms Hlen. induction Hms as [|ch s mask ss Hs _ IH]; constructor;
    [by eapply table_field_ok | done].
Qed.

Lemma matlab_rows_ok (m : matrix) (mask : list string) :
  ∀ i data, S i + length mask ≤ length m →
            ∃ data', matlab_rows m i mask data = Ok data'.
Proof.
  induction mask as [|ch mask IH]; intros i data Hlen; simpl in *.
  - by eexists.
  - unfold mat_row.
    destruct (lookup_lt_is_Some_2 m (S i)) as [row ->]; [lia|].
    rewrite result_bind_Ok. apply IH. lia.
Qed.

Lemma save_matlab_ok (m : matrix) (mask : list string) savePrefix :
  length m = length mask + 1 →
  ∃ saved, save_matlab m mask savePrefix = Ok saved.
Proof.
  intros Hlen. unfold save_matlab.
  destruct savePrefix as [[|c prefix]|]; [by eexists| |by eexists].
  unfold mat_row at 1.
  destruct (lookup_lt_is_Some_2 m 0) as [row ->]; [lia|].
  rewrite result_bind_Ok.
  destruct (matlab_rows_ok m mask 0 {["SEQ" := row]}) as [data ->]; [lia|].
  by eexists.
Qed.

Section AcquireFacts.

Variable decrypt : string → raw_frame → option bit_frame.
Variable key : string.

(** In normal operation, whatever the output queue held when the call
    began, the call returns the matrix of the fields of the frames left
    on the queue followed by those of the frames it decoded, and leaves
    both queues empty.  The worker has nothing left to move once the
    loop is over, so the schedule [late] makes no difference. *)
Lemma acquireData_steady_stale env late self duration mask ss savePrefix n :
  workers self = [key] →
  slices self = slices_table →
  input_queue self = [] →
  Forall (λ bits, length bits = frame_bits) (output_queue self) →
  steady decrypt key env →
  (duration * inject_Z (sampling_rate self)
     == inject_Z (Z.of_nat (length (output_queue self) + n)))%Q →
  n ≤ length (decoded decrypt key env) →
  mask_slices slices_table mask ss →
  ∃ saved,
    acquireData decrypt env late self duration mask savePrefix
      = Some (drained self,
              drop (length (reads_for decrypt key n env)) env,
              Ok ((λ s, field s <$>
                          output_queue self
                            ++ decoded decrypt key (reads_for decrypt key n env))
                    <$> Slice 0 8 :: ss, saved)).
Proof.
  intros Hkey Htbl Hin Hstale Hst Htotal Hn Hms.
  destruct (acquire_loop_reads_for decrypt key
              (duration * inject_Z (sampling_rate self)) env self n)
    as [Hloop Hlen]; try done.
  set (used := reads_for decrypt key n env) in *.
  set (q := output_queue self ++ decoded decrypt key used) in *.
  assert (Hq : Forall (λ bits, Forall (λ s, field_ok s bits) (Slice 0 8 :: ss)) q).
  { apply Forall_forall. intros bits Hbits.
    assert (length bits = frame_bits) as Hb.
    { apply elem_of_app in Hbits as [Hbits|Hbits].
      - rewrite Forall_forall in Hstale. by apply Hstale.
      - apply (decoded_frame_bits decrypt key used); [|done].
        by apply reads_for_steady. }
    constructor; [by apply (table_field_ok "SEQ#")|].
    by eapply mask_slices_field_ok. }
  pose proof (parse_frames_rows slices_table (length q) (Slice 0 8) mask ss
                eq_refl Hms q [] eq_refl Hq) as Hparse.
  rewrite <- np_zeros_partial_rows, app_nil_l in Hparse.
  assert (Hrows : partial_row q (length q) <$> Slice 0 8 :: ss
                  = (λ s, field s <$> q) <$> Slice 0 8 :: ss)
    by (apply list_fmap_ext; intros; apply partial_row_done).
  rewrite Hrows in Hparse. cbn [length] in Hparse.
  destruct (save_matlab_ok
              ((λ s, field s <$> q) <$> Slice 0 8 :: ss) mask savePrefix)
    as [saved Hsave].
  { rewrite length_fmap. simpl. apply Forall2_length in Hms. lia. }
  exists saved.
  unfold acquireData. rewrite Hloop.
  unfold queue_join.
  rewrite !(decryptor_steps_idle decrypt _ (set_queues [] q self)) by done.
  cbn [input_queue output_queue slices set_queues length].
  rewrite Htbl.
  replace (length mask + 1) with (S (length ss))
    by (apply Forall2_length in Hms; lia).
  rewrite Hparse.
  rewrite (decryptor_steps_idle decrypt _ (set_queues [] [] self)) by done.
  rewrite result_bind_Ok, Hsave. done.
Qed.

(** In normal operation on a fresh session the call returns the matrix
    of the fields of the first [n = duration * 128] frames that decode,
    and leaves the session as it found it. *)
Lemma acquireData_steady env late self duration n mask ss savePrefix :
  ready key self →
  steady decrypt key env →
  (duration * 128 == inject_Z (Z.of_nat n))%Q →
  n ≤ length (decoded decrypt key env) →
  mask_slices slices_table mask ss →
  ∃ used rest saved,
    env = used ++ rest ∧
    used = reads_for decrypt key n env ∧
    length (decoded decrypt key used) = n ∧
    acquireData decrypt env late self duration mask savePrefix
      = Some (self, rest,
              Ok ((λ s, field s <$> decoded decrypt key used)
                    <$> Slice 0 8 :: ss, saved)).
Proof.
  intros (Hkey & Htbl & Hrate & Hin & Hout) Hst Hd Hlen Hms.
  destruct (acquireData_steady_stale env late self duration mask ss
              savePrefix n) as [saved Hacq]; try done.
  { by rewrite Hout. }
  { by rewrite Hrate, Hout. }
  destruct (acquire_loop_reads_for decrypt key (inject_Z (Z.of_nat n)) env
              self n) as [_ Hused]; try done.
  { by rewrite Hout. }
  assert (Hself : drained self = self).
  { unfold drained. rewrite <- Hin, <- Hout. apply set_queues_id. }
  rewrite Hout, Hself in Hacq.
  eexists _, _, saved. split_and!; [apply reads_for_split | done | done |].
  exact Hacq.
Qed.

End AcquireFacts.




(** ** Unknown channel names *)





(** ** Device read errors *)




(** ** The session attributes *)

(** C10: a call of [acquireData], whatever its arguments, the device
    and the scheduling, and whether it returns or raises, leaves
    [packetLoss], [counter], [battery], [gyroX], [gyroY], the quality
    map and the slice table as they were. *)
Theorem acquireData_leaves_attributes
    (decrypt : string → raw_frame → option bit_frame)
    (env : list tick) (late : late_steps) (self : EPOC) (duration : Q)
    (mask : list string) (savePrefix : option string) (self' : EPOC)
    (env' : list tick) (r : result (matrix * option mat_file)) :
  acquireData decrypt env late self duration mask savePrefix
    = Some (self', env', r) →
  packetLoss self' = packetLoss self ∧
  counter self' = counter self ∧
  battery self' = battery self ∧
  gyroX self' = gyroX self ∧
  gyroY self' = gyroY self ∧
  quality self' = quality self ∧
  slices self' = slices self.
Proof.
  intros Hacq. apply acquireData_frame in Hacq.
  by apply same_but_queues_fields.
Qed.



Lemma quality_table_lookup (electrode : string) :
  quality_table !! electrode
    = if decide (electrode ∈ channel_names) then Some 0%Z else None.
Proof.
  case_decide as Hin.
  - unfold channel_names in Hin.
    repeat (apply elem_of_cons in Hin as [->|Hin]; [done|]).
    by apply elem_of_nil in Hin.
  - unfold quality_table, dict. cbn [fold_left fst snd].
    repeat (rewrite lookup_insert_ne;
            [|intros <-; apply Hin; unfold channel_names; set_solver]).
    apply lookup_empty.
Qed.

(** C6 (as amended): no method writes the quality map.  In every
    session a program can reach, whatever frames it has acquired,
    [getContactQuality] returns 0 for each of the fourteen channel names
    and [None] for any other name. *)
Theorem contact_quality_stays_initial
    (decrypt : string → raw_frame → option bit_frame)
    (sn : string) (self : EPOC) (electrode : string) :
  reachable decrypt sn self →
  getContactQuality self electrode
    = if decide (electrode ∈ channel_names) then Some 0%Z else None.
Proof.
  intros Hreach. apply reachable_tables in Hreach as [_ Hq].
  unfold getContactQuality. rewrite Hq. apply quality_table_lookup.
Qed.

(** ** The bench session *)

(** ** The loop when the target is out of reach *)

Section Unreachable.

Variable decrypt : string → raw_frame → option bit_frame.

Lemma decryptor_step_output_grows (i : nat) (self : EPOC) :
  length (output_queue self)
    ≤ length (output_queue (decryptor_step decrypt i self)).
Proof.
  unfold decryptor_step.
  destruct (workers self !! i) as [k|]; [|done].
  destruct (input_queue self) as [|raw inq]; [done|].
  destruct (decrypt k raw); simpl; [rewrite length_app; lia | done].
Qed.

Lemma decryptor_steps_output_grows (run : steps) (self : EPOC) :
  length (output_queue self)
    ≤ length (output_queue (decryptor_steps decrypt run self)).
Proof.
  revert self. induction run as [|i run IH]; intros self; simpl; [done|].
  etrans; [apply decryptor_step_output_grows | apply IH].
Qed.

(** The output queue only grows while the loop runs: when no length
    from the present one on equals [total], the loop reads for as long
    as the device returns frames. *)
Lemma acquire_loop_never (total : Q) (env : list tick) :
  Forall read_ok env →
  ∀ self,
    (∀ n, length (output_queue self) ≤ n →
          Qeq_bool (inject_Z (Z.of_nat n)) total = false) →
    acquire_loop decrypt env self total = None.
Proof.
  induction 1 as [|t env [raw Hraw] _ IH]; intros self Hnever; simpl.
  - by rewrite Hnever.
  - rewrite Hnever by done. rewrite Hraw. apply IH.
    intros n Hn. apply Hnever. etrans; [|exact Hn].
    etrans; [|apply decryptor_steps_output_grows]. done.
Qed.



End Unreachable.

(** ** The bench session *)

Lemma length_bits_of_bytes (raw : raw_frame) :
  length (raw ≫= bits_of_byte) = 8 * length raw.
Proof.
  induction raw as [|b raw IH]; [done|].
  change ((b :: raw) ≫= bits_of_byte)
    with (bits_of_byte b ++ (raw ≫= bits_of_byte)).
  rewrite length_app, IH.
  unfold bits_of_byte. destruct (Byte.to_bits b) as (?&?&?&?&?&?&?&?).
  simpl. lia.
Qed.

Lemma plaintext_steady_tick (k : string) (raw : raw_frame) (ws : steps) :
  0 ∈ ws → steady_tick plaintext_decrypt k (Tick (ReadOk raw) ws).
Proof.
  intros Hws. split; [|done]. exists raw. split; [done|].
  intros bits. unfold plaintext_decrypt. case_decide as Hlen; [|done].
  intros [= <-]. rewrite length_bits_of_bytes, Hlen. done.
Qed.

Lemma bench_second_steady : steady plaintext_decrypt bench_key bench_second.
Proof.
  apply Forall_fmap, Forall_forall. intros b _.
  apply plaintext_steady_tick. by left.
Qed.

Lemma lossy_second_steady : steady plaintext_decrypt bench_key lossy_second.
Proof.
  pose proof bench_second_steady as Hst. unfold steady in *.
  constructor; [apply plaintext_steady_tick; by left|].
  apply Forall_app. split; [by apply Forall_take|].
  constructor; [apply plaintext_steady_tick; by left | by apply Forall_drop].
Qed.

Lemma bench_second_read_ok : Forall read_ok bench_second.
Proof.
  apply Forall_fmap, Forall_forall. intros b _. by eexists.
Qed.

Lemma bench_session_ready : ready bench_key bench_session.
Proof. by split_and!. Qed.

Lemma bench_session_reachable :
  reachable plaintext_decrypt bench_serial bench_session.
Proof.
  apply (reach_setup _ _ (EPOC_init bench_serial) true);
    [apply reach_init | reflexivity].
Qed.

Lemma stale_session_reachable :
  reachable plaintext_decrypt bench_serial stale_session.
Proof.
  apply (reach_acquire _ _ bench_session bench_second idle_late 1 ["XX"]
           None stale_session [] (Raise (KeyError "XX")));
    [apply bench_session_reachable | by vm_compute].
Qed.

(** ** Instances of the theorems above *)





Lemma acquireData_leaves_attributes_witness :
  packetLoss stale_session = packetLoss bench_session ∧
  counter stale_session = counter bench_session ∧
  battery stale_session = battery bench_session ∧
  gyroX stale_session = gyroX bench_session ∧
  gyroY stale_session = gyroY bench_session ∧
  quality stale_session = quality bench_session ∧
  slices stale_session = slices bench_session.
Proof.
  apply (acquireData_leaves_attributes plaintext_decrypt bench_second
           idle_late bench_session 1 ["XX"] None stale_session []
           (Raise (KeyError "XX"))).
  by vm_compute.
Defined.


Lemma contact_quality_stays_initial_witness :
  getContactQuality stale_session "O2"
    = if decide ("O2" ∈ channel_names) then Some 0%Z else None.
Proof.
  apply (contact_quality_stays_initial plaintext_decrypt bench_serial
           stale_session "O2").
  apply stale_session_reachable.
Defined.


(** ** Where the stated claims fail *)




(** C6, as stated, fails: "F3" has a contact quality (0) before any
    frame was read, and still has it after a second of frames whose
    sequence number 7 maps to "O2" and never to "F3"; and the quality of
    "O2" is the 0 it was before those frames. *)
Lemma contact_quality_ignores_frames :
  ¬ unseen_electrodes_have_no_quality (EPOC_init bench_serial) [] ∧
  (∃ eeg,
     acquireData plaintext_decrypt bench_second idle_late bench_session 1
                 ["O1"] None
       = Some (bench_session, [], Ok (eeg, None)) ∧
     eeg !! 0 = Some (replicate 128 7%Z)) ∧
  cqOrder bench_session !! Z.to_nat (7 mod 128) = Some (Some "O2") ∧
  getContactQuality bench_session "O2" = Some 0%Z ∧
  ¬ unseen_electrodes_have_no_quality bench_session (replicate 128 7%Z).
Proof.
  split_and!.
  - intros H. specialize (H "F3"). unfold getContactQuality in H.
    discriminate H. by intros sq ?%elem_of_nil.
  - eexists. split; by vm_compute.
  - reflexivity.
  - reflexivity.
  - intros H. specialize (H "F3"). unfold getContactQuality in H.
    discriminate H.
    intros sq [-> _]%elem_of_replicate. by vm_compute.
Qed.


(** The two [qsize()] calls after the loop are a race: when the worker
    finishes the frame in flight between them, the [for] loop runs one
    column past the matrix. *)
Remark late_frame_overruns_matrix :
  ∃ self',
    acquireData plaintext_decrypt lagging_second range_late bench_session 1
                ["O1"] None
      = Some (self', [], Raise IndexError).
Proof. eexists. by vm_compute. Qed.

(** * Further properties of the module *)

(** The bit ranges of the table are pairwise disjoint and lie inside
    the 256 bits of a frame: no two keys read a common bit. *)
Theorem table_slices_disjoint (sn : string) (k1 k2 : string) (s1 s2 : slice) :
  k1 ≠ k2 →
  slices (EPOC_init sn) !! k1 = Some s1 →
  slices (EPOC_init sn) !! k2 = Some s2 →
  disjoint_slices s1 s2 ∧ stop s1 ≤ frame_bits ∧ stop s2 ≤ frame_bits.
Proof.
  simpl. intros Hne H1 H2.
  assert (Hall : map_Forall (λ k1 s1, map_Forall (λ k2 s2,
                   k1 ≠ k2 → disjoint_slices s1 s2) slices_table)
                   slices_table)
    by (apply (bool_decide_unpack _); vm_compute; exact I).
  pose proof (table_slices_in_frame k1 s1 H1) as Hb1.
  pose proof (table_slices_in_frame k2 s2 H2) as Hb2.
  simpl in Hb1, Hb2.
  split_and!; [by apply (Hall k1 s1 H1 k2 s2 H2) | lia | lia].
Qed.

Lemma table_slices_disjoint_witness :
  disjoint_slices (Slice 92 106) (Slice 134 148) ∧
  106 ≤ frame_bits ∧ 148 ≤ frame_bits.
Proof.
  apply (table_slices_disjoint bench_serial "O1" "O2");
    [discriminate | reflexivity | reflexivity].
Defined.

(** The battery table has a level for exactly the bit values 128..255;
    every level is a percentage, and a larger bit value never has a
    smaller level. *)
Theorem battery_levels_range_monotone (k1 k2 : Z) :
  (is_Some (battery_levels_table !! k1) ↔ (128 ≤ k1 ≤ 255)%Z) ∧
  (∀ v1 v2,
     battery_levels_table !! k1 = Some v1 →
     battery_levels_table !! k2 = Some v2 →
     (0 ≤ v1 ≤ 100)%Z ∧ ((k1 ≤ k2)%Z → (v1 ≤ v2)%Z)).
Proof.
  assert (Hkeys : map_Forall (λ k v, (128 ≤ k ≤ 255)%Z ∧ (0 ≤ v ≤ 100)%Z)
                             battery_levels_table)
    by (apply (bool_decide_unpack _); vm_compute; exact I).
  assert (Hall : Forall (λ k, is_Some (battery_levels_table !! k))
                        (seqZ 128 128))
    by (apply (bool_decide_unpack _); vm_compute; exact I).
  assert (Hmono : map_Forall (λ k1 v1, map_Forall (λ k2 v2,
                    (k1 ≤ k2)%Z → (v1 ≤ v2)%Z) battery_levels_table)
                    battery_levels_table)
    by (apply (bool_decide_unpack _); vm_compute; exact I).
  split.
  - split.
    + intros [v Hv]. by apply Hkeys in Hv as [? _].
    + intros Hk. rewrite Forall_forall in Hall. apply Hall.
      apply elem_of_seqZ. lia.
  - intros v1 v2 H1 H2. split.
    + by apply Hkeys in H1 as [_ ?].
    + by apply (Hmono k1 v1 H1 k2 v2 H2).
Qed.

(** The convenience attributes invert the channel list: the attribute
    named after a channel holds exactly the position of that name in
    [self.channels], and no other attribute is created. *)
Theorem channel_attributes_index (ch : string) (i : nat) :
  channel_attributes !! ch = Some i ↔ channels (EPOC_init "") !! i = Some ch.
Proof.
  simpl. split.
  - assert (Hall : map_Forall (λ ch i, channel_names !! i = Some ch)
                              channel_attributes)
      by (apply (bool_decide_unpack _); vm_compute; exact I).
    apply Hall.
  - intros Hi.
    assert (i < length channel_names) as Hlt by (by eapply lookup_lt_Some).
    simpl in Hlt.
    do 14 (destruct i as [|i]; [by injection Hi as <-|]). lia.
Qed.

(** The cycle names only electrodes that [self.quality] has an entry
    for, and its first sixteen entries name every one of them. *)
Theorem cqOrder_names_quality_keys (sn : string) (electrode : string) :
  (Some electrode ∈ cqOrder (EPOC_init sn) →
   is_Some (quality (EPOC_init sn) !! electrode)) ∧
  (is_Some (quality (EPOC_init sn) !! electrode) →
   Some electrode ∈ take 16 (cqOrder (EPOC_init sn))).
Proof.
  simpl. split.
  - assert (Hall : Forall (λ n, is_Some (quality_table !! n))
                          (omap id cqOrder_table))
      by (apply (bool_decide_unpack _); vm_compute; exact I).
    rewrite Forall_forall in Hall. intros Hin. apply Hall.
    apply list_elem_of_omap. by exists (Some electrode).
  - assert (Hall : map_Forall (λ n _, Some n ∈ take 16 cqOrder_table)
                              quality_table)
      by (apply (bool_decide_unpack _); vm_compute; exact I).
    intros [v Hv]. apply (Hall _ _ Hv).
Qed.

(** ** [setupEncryption] and the serial number *)

Lemma string_get_is_Some (s : string) :
  ∀ i, is_Some (String.get i s) ↔ i < String.length s.
Proof.
  induction s as [|c s IH]; intros i; simpl.
  - split; [by intros [? ?] | lia].
  - destruct i as [|i]; simpl.
    + split; [lia | by eexists].
    + rewrite IH. lia.
Qed.

Lemma str_index_Ok (s : string) (i : nat) :
  i < String.length s → ∃ c, str_index s i = Ok c.
Proof.
  intros [c Hc]%string_get_is_Some. exists c. unfold str_index. by rewrite Hc.
Qed.

Lemma str_index_Raise (s : string) (i : nat) :
  String.length s ≤ i → str_index s i = Raise IndexError.
Proof.
  intros Hlen. unfold str_index.
  destruct (String.get i s) as [c|] eqn:Hc; [|done].
  assert (i < String.length s) by (apply string_get_is_Some; by eexists). lia.
Qed.

(** [setupEncryption] raises [IndexError] exactly when the serial
    number has fewer than 16 characters.  Otherwise it derives a key of
    16 characters, stores it, starts one more decryptor process with
    it beside those of earlier calls and stores that process in
    [self.decryptor]; tables, counters and queues stay as they are. *)
Theorem setupEncryption_serial_length (self : EPOC) (research : bool) :
  (String.length (serialNumber self) < 16 ↔
   setupEncryption self research = Raise IndexError) ∧
  (16 ≤ String.length (serialNumber self) ↔
   ∃ k self',
     setupEncryption self research = Ok self' ∧
     derive_key (serialNumber self) research = Ok k ∧
     String.length k = 16 ∧
     decryption_key self' = Some k ∧
     decryptor self' = Some k ∧
     workers self' = workers self ++ [k] ∧
     self' = start_decryptor k self ∧
     same_but_queues (start_decryptor k self) self' ∧
     input_queue self' = input_queue self ∧
     output_queue self' = output_queue self ∧
     slices self' = slices self ∧
     quality self' = quality self ∧
     serialNumber self' = serialNumber self).
Proof.
  unfold setupEncryption, derive_key.
  destruct (decide (String.length (serialNumber self) < 16)) as [Hlt|Hge].
  - rewrite (str_index_Raise _ 15) by lia.
    split; split; try done; try lia.
    by intros (k & self' & [=] & _).
  - destruct (str_index_Ok (serialNumber self) 15) as [c15 ->]; [lia|].
    destruct (str_index_Ok (serialNumber self) 14) as [c14 ->]; [lia|].
    destruct (str_index_Ok (serialNumber self) 13) as [c13 ->]; [lia|].
    destruct (str_index_Ok (serialNumber self) 12) as [c12 ->]; [lia|].
    rewrite !result_bind_Ok.
    split; split; try lia.
    + by destruct research.
    + intros _. destruct research; eexists _, _;
        (split_and!; [reflexivity..| apply same_but_queues_refl |
                      reflexivity | reflexivity | reflexivity | reflexivity |
                      reflexivity]).
Qed.

(** The key is a function of the serial characters 12 to 15 alone: two
    serial numbers that agree there derive the same key. *)
Theorem derive_key_last_four (sn1 sn2 : string) (research : bool) :
  (∀ i, 12 ≤ i ≤ 15 → String.get i sn1 = String.get i sn2) →
  derive_key sn1 research = derive_key sn2 research.
Proof.
  intros Heq. unfold derive_key, str_index.
  by rewrite (Heq 15), (Heq 14), (Heq 13), (Heq 12) by lia.
Qed.

Lemma derive_key_last_four_witness :
  derive_key "SN20120229000459" true = derive_key "XX________AB0459" true.
Proof.
  apply (derive_key_last_four "SN20120229000459" "XX________AB0459" true).
  intros i Hi.
  destruct (decide (i = 12)) as [->|]; [reflexivity|].
  destruct (decide (i = 13)) as [->|]; [reflexivity|].
  destruct (decide (i = 14)) as [->|]; [reflexivity|].
  destruct (decide (i = 15)) as [->|]; [reflexivity|lia].
Defined.

(** ** The packet count of the entry point *)

Lemma packets_dropped_step (cnt a b : Z) (l : list Z) :
  packets_dropped cnt (a :: b :: l)
    = packets_dropped (cnt + ((a + 1) `mod` 128 - b))%Z (b :: l).
Proof. reflexivity. Qed.

Lemma packets_dropped_run (l : list Z) :
  ∀ a cnt lst,
    Forall (λ s, 0 ≤ s < 127)%Z (a :: l) →
    last (a :: l) = Some lst →
    packets_dropped cnt (a :: l) = (cnt + Z.of_nat (length l) + a - lst)%Z.
Proof.
  induction l as [|b l IH]; intros a cnt lst Hall Hlast.
  - injection Hlast as <-. simpl. lia.
  - apply Forall_cons in Hall as [Ha Hall].
    rewrite last_cons_cons in Hlast.
    rewrite packets_dropped_step, (IH b _ lst Hall Hlast).
    rewrite Z.mod_small by lia. simpl length. lia.
Qed.

(** When every sequence number follows its predecessor modulo 128, the
    entry point counts no dropped packet. *)
Theorem packets_dropped_consecutive (seqs : list Z) :
  (∀ i a b, seqs !! i = Some a → seqs !! S i = Some b →
            b = ((a + 1) `mod` 128)%Z) →
  packets_dropped 0 seqs = 0%Z.
Proof.
  induction seqs as [|a [|b seqs] IH]; intros Hnext; [done..|].
  rewrite packets_dropped_step.
  rewrite <- (Hnext 0 a b eq_refl eq_refl), Z.sub_diag.
  apply IH. intros i x y Hx Hy. by apply (Hnext (S i)).
Qed.

Lemma packets_dropped_consecutive_witness :
  packets_dropped 0 [126; 127; 0; 1]%Z = 0%Z.
Proof.
  apply (packets_dropped_consecutive [126; 127; 0; 1]%Z).
  intros i a b Ha Hb.
  do 3 (destruct i as [|i];
        [injection Ha as <-; injection Hb as <-; reflexivity|]).
  destruct i; discriminate Hb.
Defined.

(** Within one cycle (no sequence number reaches 127) the count is the
    negated number of missing packets: the number of gaps between
    samples minus the distance from the first to the last sequence
    number. *)
Theorem packets_dropped_is_negated_loss (seqs : list Z) (first lst : Z) :
  Forall (λ s, 0 ≤ s < 127)%Z seqs →
  seqs !! 0 = Some first →
  last seqs = Some lst →
  packets_dropped 0 seqs
    = (- ((lst - first) - (Z.of_nat (length seqs) - 1)))%Z.
Proof.
  intros Hall Hfirst Hlast.
  destruct seqs as [|a l]; [discriminate|]. injection Hfirst as ->.
  rewrite (packets_dropped_run l first 0 lst Hall Hlast).
  simpl length. lia.
Qed.

Lemma packets_dropped_is_negated_loss_witness :
  packets_dropped 0 [5; 6; 9; 10]%Z
    = (- ((10 - 5) - (Z.of_nat (length [5; 6; 9; 10]%Z) - 1)))%Z.
Proof.
  apply (packets_dropped_is_negated_loss [5; 6; 9; 10]%Z 5 10).
  - repeat constructor; lia.
  - reflexivity.
  - reflexivity.
Defined.

(** ** Every outcome of [acquireData] *)

Lemma mat_set_shape (r c : nat) (m : matrix) (i j : nat) (v : Z) :
  mat_shape r c m → i < r → j < c →
  ∃ m', mat_set m i j v = Ok m' ∧ mat_shape r c m'.
Proof.
  intros [Hlen Hrows] Hi Hj. unfold mat_set.
  destruct (lookup_lt_is_Some_2 m i) as [row Hrow]; [lia|].
  rewrite Hrow.
  assert (length row = c) as Hc
    by (rewrite Forall_forall in Hrows; apply Hrows;
        by eapply list_elem_of_lookup_2).
  rewrite decide_True by lia.
  eexists. split; [done|]. split.
  - by rewrite length_insert.
  - apply Forall_insert; [done|]. by rewrite length_insert.
Qed.

Lemma np_zeros_shape (r c : nat) : mat_shape r c (np_zeros r c).
Proof.
  unfold np_zeros. split; [apply length_replicate|].
  apply Forall_replicate, length_replicate.
Qed.

Lemma mat_set_outside (r c : nat) (m : matrix) (i j : nat) (v : Z) :
  mat_shape r c m → c ≤ j → mat_set m i j v = Raise IndexError.
Proof.
  intros [Hlen Hrows] Hj. unfold mat_set.
  destruct (m !! i) as [row|] eqn:Hrow; [|done].
  assert (length row = c) as Hc
    by (rewrite Forall_forall in Hrows; apply Hrows;
        by eapply list_elem_of_lookup_2).
  by rewrite decide_False by lia.
Qed.

Section Outcomes.

Variable tbl : gmap string slice.
Variables r c : nat.

Lemma fill_channels_outcome (bits : bit_frame) (spl : nat) :
  spl < c →
  ∀ mask i m,
    mat_shape r c m → i + length mask < r →
    match fill_channels tbl bits spl i mask m with
    | Ok m' => mat_shape r c m'
    | Raise e =>
        (∃ k, e = KeyError k ∧ k ∈ mask ∧ tbl !! k = None) ∨
        e = InterpretError
    end.
Proof.
  intros Hspl mask.
  induction mask as [|ch mask IH]; intros i m Hm Hi; simpl in *; [done|].
  unfold dict_get.
  destruct (tbl !! ch) as [s|] eqn:Hch; simpl.
  2: { left. exists ch. split_and!; [done | by left | done]. }
  unfold uint. destruct (bit_slice s bits) as [|b bs]; simpl; [by right|].
  destruct (mat_set_shape r c m (S i) spl (bits_value (b :: bs)) Hm)
    as (m' & -> & Hm'); [lia | done |].
  simpl. specialize (IH (S i) m' Hm').
  destruct (fill_channels tbl bits spl (S i) mask m') as [m''|e];
    [apply IH; lia|].
  destruct IH as [(k & -> & Hk & Hnone) | -> ]; [lia | | by right].
  left. exists k. split_and!; [done | by right | done].
Qed.

Lemma parse_frame_outcome (mask : list string) (bits : bit_frame)
    (spl : nat) (m : matrix) :
  spl < c → mat_shape r c m → length mask < r →
  match parse_frame tbl mask spl bits m with
  | Ok m' => mat_shape r c m'
  | Raise e => parse_failure tbl mask e
  end.
Proof.
  intros Hspl Hm Hr. unfold parse_frame, dict_get.
  destruct (tbl !! "SEQ#") as [s|] eqn:Hsq; simpl.
  2: { left. exists "SEQ#". split_and!; [done | by left | done]. }
  unfold uint. destruct (bit_slice s bits) as [|b bs]; simpl; [by right|].
  destruct (mat_set_shape r c m 0 spl (bits_value (b :: bs)) Hm)
    as (m' & -> & Hm'); [lia | done |].
  simpl.
  pose proof (fill_channels_outcome bits spl Hspl mask 0 m' Hm') as Hfill.
  destruct (fill_channels tbl bits spl 0 mask m') as [m''|e];
    [apply Hfill; lia|].
  destruct Hfill as [(k & -> & Hk & Hnone) | -> ]; [lia | | by right].
  left. exists k. split_and!; [done | by right | done].
Qed.

(** A frame past the last column: the first write, that of the
    sequence number, is out of bounds. *)
Lemma parse_frame_overrun (mask : list string) (bits : bit_frame)
    (spl : nat) (m : matrix) :
  c ≤ spl → mat_shape r c m →
  ∃ e, parse_frame tbl mask spl bits m = Raise e ∧
       (parse_failure tbl mask e ∨ e = IndexError).
Proof.
  intros Hspl Hm. unfold parse_frame, dict_get.
  destruct (tbl !! "SEQ#") as [s|] eqn:Hsq; simpl.
  2: { eexists. split; [done|]. left. left. exists "SEQ#".
       split_and!; [done | by left | done]. }
  unfold uint. destruct (bit_slice s bits) as [|b bs]; simpl.
  { eexists. split; [done|]. left. by right. }
  rewrite (mat_set_outside r c) by done. simpl.
  eexists. split; [done|]. by right.
Qed.

Lemma parse_frames_outcome (mask : list string) :
  length mask < r →
  ∀ q spl m,
    mat_shape r c m →
    match (parse_frames tbl mask spl q m).2 with
    | Ok m' =>
        mat_shape r c m' ∧ (parse_frames tbl mask spl q m).1 = [] ∧
        (q = [] ∨ spl + length q ≤ c)
    | Raise e =>
        parse_failure tbl mask e ∨ (e = IndexError ∧ c < spl + length q)
    end.
Proof.
  intros Hr q. induction q as [|bits q IH]; intros spl m Hm; simpl in *.
  - split_and!; [done | done | by left].
  - destruct (decide (spl < c)) as [Hspl|Hspl].
    + pose proof (parse_frame_outcome mask bits spl m Hspl Hm Hr) as Hone.
      destruct (parse_frame tbl mask spl bits m) as [m'|e]; simpl;
        [|by left].
      specialize (IH (S spl) m' Hone).
      destruct (parse_frames tbl mask (S spl) q m').2 as [m''|e].
      * destruct IH as (Hm'' & Hq & Hlen). split_and!; [done..|].
        right. destruct Hlen as [->|Hlen]; simpl; lia.
      * destruct IH as [IH|[-> Hlen]]; [by left|]. right. split; [done|lia].
    + destruct (parse_frame_overrun mask bits spl m) as (e & -> & He);
        [lia | done |]. simpl.
      destruct He as [He| ->]; [by left|]. right. split; [done|lia].
Qed.

End Outcomes.

Section LoopOutcomes.

Variable decrypt : string → raw_frame → option bit_frame.

(** The loop reads the script in order.  It ends normally only at a
    poll that finds exactly [total] decoded frames, and it ends with an
    exception only on a read that raised, with the exception that this
    read leaves the handler with. *)
Lemma acquire_loop_outcome (env : list tick) :
  ∀ self total self' env' res,
    acquire_loop decrypt env self total = Some (self', env', res) →
    match res with
    | Ok _ =>
        (inject_Z (Z.of_nat (length (output_queue self'))) == total)%Q ∧
        ∃ used, env = used ++ env' ∧ Forall read_ok used
    | Raise e =>
        ∃ pre r ws,
          env = pre ++ Tick r ws :: env' ∧
          Forall read_ok pre ∧ read_failure r e
    end.
Proof.
  induction env as [|t env IH]; intros self total self' env' res; simpl.
  - destruct (Qeq_bool _ _) eqn:Hpoll; [|done]. intros [= <- <- <-].
    split; [by apply Qeq_bool_iff|]. by exists [].
  - destruct (Qeq_bool _ _) eqn:Hpoll.
    { intros [= <- <- <-]. split; [by apply Qeq_bool_iff|]. by exists []. }
    destruct t as [[raw|errno|errno] ws]; simpl.
    + intros Hloop. apply IH in Hloop.
      assert (read_ok (Tick (ReadOk raw) ws)) by (by exists raw).
      destruct res as [[]|e].
      * destruct Hloop as (Hlen & used & -> & Hused).
        split; [done|]. exists (Tick (ReadOk raw) ws :: used).
        split; [done | by constructor].
      * destruct Hloop as (pre & r & ws' & -> & Hpre & Hr).
        exists (Tick (ReadOk raw) ws :: pre), r, ws'.
        split_and!; [done | by constructor | done].
    + intros [= <- <- <-]. exists [], (USBError errno), ws.
      split_and!; [done | done |]. left. by eexists.
    + intros [= <- <- <-]. exists [], (ReadIOError errno), ws.
      split_and!; [done | done |]. right. by eexists.
Qed.

(** What a call can end with: a matrix of [len(channelMask) + 1] rows
    of equal length, at least [duration * rate] columns long; the
    exception of the read that raised; a failure of the parser; or the
    [IndexError] of a frame that reached the output queue between the
    two [qsize()] calls. *)
Lemma acquireData_outcome env late self duration mask savePrefix
    self' env' res :
  acquireData decrypt env late self duration mask savePrefix
    = Some (self', env', res) →
  match res with
  | Ok (eeg, saved) =>
      (∃ cols, mat_shape (length mask + 1) cols eeg ∧
               (duration * inject_Z (sampling_rate self)
                <= inject_Z (Z.of_nat cols))%Q) ∧
      (during_parse late = [] → output_queue self' = []) ∧
      ∃ used, env = used ++ env' ∧ Forall read_ok used
  | Raise e =>
      (∃ pre r ws,
         env = pre ++ Tick r ws :: env' ∧
         Forall read_ok pre ∧ read_failure r e) ∨
      parse_failure (slices self) mask e ∨
      (e = IndexError ∧ before_range late ≠ [])
  end.
Proof.
  unfold acquireData.
  destruct (acquire_loop _ _ _ _) as [[[self1 env1] [[]|e]]|] eqn:Hloop;
    [| |discriminate].
  2: { intros [= <- <- <-]. left. by apply acquire_loop_outcome in Hloop. }
  pose proof (acquire_loop_frame decrypt _ _ _ _ _ _ Hloop) as Hframe1.
  apply acquire_loop_outcome in Hloop as (Htotal & used & Henv & Hused).
  pose proof (decryptor_steps_frame decrypt (during_join late) self1)
    as Hframe2.
  pose proof (decryptor_steps_output_grows decrypt (during_join late) self1)
    as Hgrow.
  fold (queue_join decrypt (during_join late) self1) in Hframe2, Hgrow.
  set (self2 := queue_join decrypt (during_join late) self1) in *.
  pose proof (decryptor_steps_frame decrypt (before_range late) self2)
    as Hframe3.
  set (self3 := decryptor_steps decrypt (before_range late) self2) in *.
  assert (Htbl : slices self3 = slices self).
  { apply same_but_queues_fields in Hframe1, Hframe2, Hframe3.
    destruct Hframe1 as (_&_&_&_&_&_&H1), Hframe2 as (_&_&_&_&_&_&H2),
             Hframe3 as (_&_&_&_&_&_&H3).
    congruence. }
  rewrite Htbl.
  pose proof (parse_frames_outcome (slices self) (length mask + 1)
                (length (output_queue self2)) mask ltac:(lia)
                (output_queue self3) 0 _ (np_zeros_shape _ _))
    as Hparse.
  destruct (parse_frames _ _ _ _ _) as [q [eeg|e]]; simpl in Hparse.
  - destruct Hparse as (Hshape & -> & _).
    destruct (save_matlab_ok eeg mask savePrefix) as [saved Hsave];
      [apply Hshape|].
    rewrite result_bind_Ok, Hsave. intros [= <- <- <-].
    split_and!; [| |by exists used].
    + exists (length (output_queue self2)). split; [done|].
      rewrite <- Htotal, <- Zle_Qle. lia.
    + by intros ->.
  - intros [= <- <- <-]. right.
    destruct Hparse as [Hparse|[-> Hlen]]; [by left|]. right.
    split; [done|]. intros Hnil. unfold self3 in Hlen.
    rewrite Hnil in Hlen. simpl in Hlen. lia.
Qed.

End LoopOutcomes.

(** Whenever [acquireData] returns, under any scheduling of the worker
    and whatever the frames, the matrix has [len(channelMask) + 1] rows
    of one common length, never fewer than [duration * rate] columns;
    and when the worker adds nothing while the frames are parsed, the
    output queue is left empty. *)
Theorem acquireData_matrix_is_rectangular
    (decrypt : string → raw_frame → option bit_frame)
    (env : list tick) (late : late_steps) (self : EPOC) (duration : Q)
    (mask : list string) (savePrefix : option string) (self' : EPOC)
    (env' : list tick) (eeg : matrix) (saved : option mat_file) :
  acquireData decrypt env late self duration mask savePrefix
    = Some (self', env', Ok (eeg, saved)) →
  (∃ cols, mat_shape (length mask + 1) cols eeg ∧
           (duration * inject_Z (sampling_rate self)
            <= inject_Z (Z.of_nat cols))%Q) ∧
  (during_parse late = [] → output_queue self' = []).
Proof.
  intros Hacq. apply acquireData_outcome in Hacq as (Hshape & Hq & _).
  by split.
Qed.

Lemma acquireData_matrix_is_rectangular_witness :
  (∃ cols, mat_shape (length ["O1"] + 1) cols
                     [replicate 129 7%Z; replicate 129 1285%Z] ∧
           (1 * inject_Z (sampling_rate bench_session)
            <= inject_Z (Z.of_nat cols))%Q) ∧
  (during_parse join_late = [] → output_queue bench_session = []).
Proof.
  apply (acquireData_matrix_is_rectangular plaintext_decrypt lagging_second
           join_late bench_session 1 ["O1"] None bench_session []
           [replicate 129 7%Z; replicate 129 1285%Z] None).
  by vm_compute.
Defined.

(** When no frame reaches the output queue between the [qsize()] that
    sizes the matrix and the [qsize()] that bounds the [for] loop, no
    call of [acquireData] ends with an [IndexError]: every write into
    the matrix and every row handed to [savemat] is in bounds. *)
Theorem acquireData_never_IndexError
    (decrypt : string → raw_frame → option bit_frame)
    (env : list tick) (late : late_steps) (self : EPOC) (duration : Q)
    (mask : list string) (savePrefix : option string) (self' : EPOC)
    (env' : list tick) (res : result (matrix * option mat_file)) :
  before_range late = [] →
  acquireData decrypt env late self duration mask savePrefix
    = Some (self', env', res) →
  res ≠ Raise IndexError.
Proof.
  intros Hlate Hacq ->. apply acquireData_outcome in Hacq.
  destruct Hacq as [(pre & r & ws & _ & _ & Hr)|[[(k & He & _)|He]|[_ Hne]]];
    try discriminate He; [|done].
  destruct Hr as [(errno & _ & He)|(errno & _ & He)]; [|discriminate He].
  unfold usb_error_handler in He. case_decide; [done|]. by destruct errno.
Qed.

Lemma acquireData_never_IndexError_witness :
  Raise (KeyError "XX") ≠ (Raise IndexError : result (matrix * option mat_file)).
Proof.
  apply (acquireData_never_IndexError plaintext_decrypt bench_second
           join_late bench_session 1 ["XX"] None stale_session []
           (Raise (KeyError "XX"))).
  - reflexivity.
  - by vm_compute.
Defined.

(** [acquireData] raises one of the module's two device exceptions only
    for a device read that raised [usb.USBError] with an integer
    [errno]: the reads before it all returned a frame,
    [EPOCTurnedOffError] stands for [errno] 110 and nothing else, and
    an [EPOCUSBError] carries the [errno] of that read, never 110. *)
Theorem device_errors_come_from_reads
    (decrypt : string → raw_frame → option bit_frame)
    (env : list tick) (late : late_steps) (self : EPOC) (duration : Q)
    (mask : list string) (savePrefix : option string) (self' : EPOC)
    (env' : list tick) (e : exn) :
  acquireData decrypt env late self duration mask savePrefix
    = Some (self', env', Raise e) →
  (e = EPOCTurnedOffError ∨ ∃ n, e = EPOCUSBError n) →
  ∃ pre errno ws,
    env = pre ++ Tick (USBError (Some errno)) ws :: env' ∧
    Forall read_ok pre ∧
    (e = EPOCTurnedOffError ↔ errno = 110%Z) ∧
    (∀ n, e = EPOCUSBError n → n = errno ∧ n ≠ 110%Z).
Proof.
  intros Hacq He. apply acquireData_outcome in Hacq.
  destruct Hacq as [(pre & r & ws & Henv & Hpre & Hr)|[Hparse|[-> _]]].
  - destruct Hr as [(errno & -> & ->)|(errno & -> & ->)].
    2: { destruct He as [He|[n He]]; discriminate He. }
    destruct errno as [errno|].
    2: { destruct He as [He|[n He]]; discriminate He. }
    exists pre, errno, ws. unfold usb_error_handler.
    split_and!; [done | done | |].
    + case_decide as Hd; [split; [|done]; by intros _; injection Hd|].
      split; [discriminate | intros ->; by destruct Hd].
    + intros n. case_decide as Hd; [discriminate|].
      intros [= ->]. split; [done|]. by intros ->.
  - destruct Hparse as [(k & -> & _)| ->];
      destruct He as [He|[n He]]; discriminate He.
  - destruct He as [He|[n He]]; discriminate He.
Qed.

Lemma device_errors_come_from_reads_witness :
  ∃ pre errno ws,
    take 5 bench_second ++ [Tick (USBError (Some 32%Z)) []]
      = pre ++ Tick (USBError (Some errno)) ws :: [] ∧
    Forall read_ok pre ∧
    (EPOCUSBError 32 = EPOCTurnedOffError ↔ errno = 110%Z) ∧
    (∀ n, EPOCUSBError 32 = EPOCUSBError n → n = errno ∧ n ≠ 110%Z).
Proof.
  apply (device_errors_come_from_reads plaintext_decrypt
           (take 5 bench_second ++ [Tick (USBError (Some 32%Z)) []])
           idle_late bench_session 1 ["O1"] None
           (set_queues [] (replicate 5 bench_bits) bench_session) []
           (EPOCUSBError 32)).
  - by vm_compute.
  - right. by exists 32%Z.
Defined.

(** A [KeyError] of [acquireData] names a key that the slice table
    lacks and that the call looked up: the sequence-number key or a
    name of the mask. *)
Theorem key_errors_name_missing_channels
    (decrypt : string → raw_frame → option bit_frame)
    (env : list tick) (late : late_steps) (self : EPOC) (duration : Q)
    (mask : list string) (savePrefix : option string) (self' : EPOC)
    (env' : list tick) (k : string) :
  acquireData decrypt env late self duration mask savePrefix
    = Some (self', env', Raise (KeyError k)) →
  slices self !! k = None ∧ (k = "SEQ#" ∨ k ∈ mask).
Proof.
  intros Hacq. apply acquireData_outcome in Hacq.
  destruct Hacq as [(pre & r & ws & _ & _ & Hr)
                   |[[(k' & He & Hk & Hnone)|He]|[He _]]].
  - destruct Hr as [(errno & _ & He)|(errno & _ & He)]; [|discriminate He].
    unfold usb_error_handler in He. case_decide; [done|]. by destruct errno.
  - by injection He as ->.
  - discriminate He.
  - discriminate He.
Qed.

Lemma key_errors_name_missing_channels_witness :
  slices bench_session !! "XX" = None ∧ ("XX" = "SEQ#" ∨ "XX" ∈ ["XX"]).
Proof.
  apply (key_errors_name_missing_channels plaintext_decrypt bench_second
           idle_late bench_session 1 ["XX"] None stale_session [] "XX").
  by vm_compute.
Defined.

(** ** Degenerate durations *)

(** With a duration of 0 and nothing in flight, [acquireData] returns
    at once: it reads nothing from the device, leaves the session as it
    is and returns [len(channelMask) + 1] empty rows, even for a mask of
    unknown names. *)
Theorem acquireData_zero_duration
    (decrypt : string → raw_frame → option bit_frame)
    (env : list tick) (late : late_steps) (self : EPOC)
    (mask : list string) (savePrefix : option string) :
  input_queue self = [] →
  output_queue self = [] →
  ∃ saved,
    acquireData decrypt env late self 0 mask savePrefix
      = Some (self, env, Ok (replicate (length mask + 1) [], saved)).
Proof.
  intros Hin Hout.
  destruct (save_matlab_ok (replicate (length mask + 1) []) mask savePrefix)
    as [saved Hsave]; [by rewrite length_replicate|].
  exists saved. unfold acquireData.
  assert (Hloop : acquire_loop decrypt env self
                    (0 * inject_Z (sampling_rate self))
                  = Some (self, env, Ok ())).
  { assert (Hpoll : Qeq_bool (inject_Z (Z.of_nat (length (output_queue self))))
                      (0 * inject_Z (sampling_rate self)) = true).
    { apply Qeq_bool_iff. rewrite Hout, Qmult_0_l. reflexivity. }
    destruct env; simpl; by rewrite Hpoll. }
  rewrite Hloop. unfold queue_join.
  rewrite !(decryptor_steps_idle decrypt _ self) by done.
  rewrite Hout. simpl.
  change (np_zeros (length mask + 1) 0) with
    (replicate (length mask + 1) (@nil Z)).
  rewrite Hsave, result_bind_Ok.
  rewrite decryptor_steps_idle by done.
  by rewrite <- Hout at 1; rewrite set_queues_id.
Qed.

Lemma acquireData_zero_duration_witness :
  ∃ saved,
    acquireData plaintext_decrypt bench_second busy_late bench_session 0
                ["XX"; "O1"] None
      = Some (bench_session, bench_second,
              Ok (replicate (length ["XX"; "O1"] + 1) [], saved)).
Proof.
  apply (acquireData_zero_duration plaintext_decrypt bench_second busy_late
           bench_session ["XX"; "O1"] None); reflexivity.
Defined.

(** With a negative duration the loop condition can never become
    false: as long as the device returns frames [acquireData] keeps
    reading, whatever the session and the scheduling of the worker. *)
Theorem acquireData_negative_duration_never_returns
    (decrypt : string → raw_frame → option bit_frame)
    (env : list tick) (late : late_steps) (self : EPOC) (duration : Q)
    (mask : list string) (savePrefix : option string) :
  (duration * inject_Z (sampling_rate self) < 0)%Q →
  Forall read_ok env →
  acquireData decrypt env late self duration mask savePrefix = None.
Proof.
  intros Htotal Henv. unfold acquireData.
  rewrite acquire_loop_never; [done | done |].
  intros n _. apply not_true_is_false. rewrite Qeq_bool_iff. intros Heq.
  rewrite <- Heq in Htotal.
  apply (Qlt_not_le _ _ Htotal). rewrite <- (Zle_Qle 0). lia.
Qed.

Lemma acquireData_negative_duration_never_returns_witness :
  acquireData plaintext_decrypt bench_second idle_late bench_session (-1)
              ["O1"] None
    = None.
Proof.
  apply (acquireData_negative_duration_never_returns plaintext_decrypt
           bench_second idle_late bench_session (-1) ["O1"] None).
  - reflexivity.
  - apply bench_second_read_ok.
Defined.

(** With a duration for which [duration * sampling_rate] is not a whole
    number, such as 0.3, the loop condition can never become false
    either: the call keeps reading for as long as the device returns
    frames. *)
Theorem acquireData_fractional_samples_never_returns
    (decrypt : string → raw_frame → option bit_frame)
    (env : list tick) (late : late_steps) (self : EPOC) (duration : Q)
    (mask : list string) (savePrefix : option string) :
  (∀ n : nat,
     ¬ (duration * inject_Z (sampling_rate self) == inject_Z (Z.of_nat n))%Q) →
  Forall read_ok env →
  acquireData decrypt env late self duration mask savePrefix = None.
Proof.
  intros Htotal Henv. unfold acquireData.
  rewrite acquire_loop_never; [done | done |].
  intros n _. apply not_true_is_false. rewrite Qeq_bool_iff. intros Heq.
  by apply (Htotal n).
Qed.

Lemma acquireData_fractional_samples_never_returns_witness :
  acquireData plaintext_decrypt bench_second idle_late bench_session (3 # 10)
              ["O1"] None
    = None.
Proof.
  apply (acquireData_fractional_samples_never_returns plaintext_decrypt
           bench_second idle_late bench_session (3 # 10) ["O1"] None).
  - intros n. unfold Qeq. simpl. lia.
  - apply bench_second_read_ok.
Defined.

(** ** The size of the samples *)

Lemma fold_bits_bound (bs : list bool) :
  ∀ acc, (0 ≤ acc)%Z →
  (0 ≤ fold_left (λ acc (b : bool), 2 * acc + (if b then 1 else 0)) bs acc
     < (acc + 1) * 2 ^ Z.of_nat (length bs))%Z.
Proof.
  induction bs as [|b bs IH]; intros acc Hacc.
  - simpl. lia.
  - cbn [fold_left length]. rewrite Nat2Z.inj_succ, Z.pow_succ_r by lia.
    assert (0 ≤ 2 * acc + (if b then 1 else 0))%Z as Hacc'
      by (destruct b; lia).
    specialize (IH _ Hacc').
    assert (0 < 2 ^ Z.of_nat (length bs))%Z by (apply Z.pow_pos_nonneg; lia).
    destruct b; nia.
Qed.

Lemma field_bound (s : slice) (bits : bit_frame) :
  (0 ≤ field s bits < 2 ^ Z.of_nat (stop s - start s))%Z.
Proof.
  unfold field, bits_value.
  pose proof (fold_bits_bound (bit_slice s bits) 0 ltac:(lia)) as [Hlo Hhi].
  split; [done|].
  eapply Z.lt_le_trans; [exact Hhi|].
  rewrite Z.add_0_l, Z.mul_1_l.
  apply Z.pow_le_mono_r; [lia|].
  unfold bit_slice. rewrite length_take. lia.
Qed.

Lemma table_slices_width :
  map_Forall (λ _ s, stop s - start s ≤ 14) slices_table.
Proof. apply (bool_decide_unpack _). vm_compute. exact I. Qed.

(** In normal operation every entry of the returned matrix is an
    unsigned integer of at most 14 bits, and every entry of row 0 (the
    sequence numbers) is one of at most 8 bits. *)
Theorem acquired_samples_fit_14_bits
    (decrypt : string → raw_frame → option bit_frame) (key : string)
    (env : list tick) (late : late_steps) (self : EPOC) (duration : Q)
    (n : nat) (mask : list string) (savePrefix : option string) :
  ready key self →
  steady decrypt key env →
  (0 < duration)%Q →
  (duration * 128 == inject_Z (Z.of_nat n))%Q →
  n ≤ length (decoded decrypt key env) →
  Forall (λ ch, is_Some (slices self !! ch)) mask →
  ∃ rest eeg saved,
    acquireData decrypt env late self duration mask savePrefix
      = Some (self, rest, Ok (eeg, saved)) ∧
    (∀ c v, mat_get eeg 0 c = Some v → (0 ≤ v < 256)%Z) ∧
    (∀ i c v, mat_get eeg i c = Some v → (0 ≤ v < 16384)%Z).
Proof.
  intros Hready Hst _ Hd Hlen Hmask.
  pose proof Hready as (_ & Htbl & _). rewrite Htbl in *.
  destruct (mask_slices_exist _ _ Hmask) as [ss Hms].
  destruct (acquireData_steady decrypt key env late self duration n mask ss
              savePrefix) as (used & rest & saved & Henv & _ & Hq & Hacq);
    [done..|].
  eexists rest, _, saved. split; [exact Hacq|].
  assert (Hentry : ∀ i c v,
            mat_get ((λ s, field s <$> decoded decrypt key used)
                       <$> Slice 0 8 :: ss) i c = Some v →
            ∃ s bits, (Slice 0 8 :: ss) !! i = Some s ∧ v = field s bits).
  { intros i c v. unfold mat_get. rewrite list_lookup_fmap.
    destruct ((Slice 0 8 :: ss) !! i) as [s|]; [|done]. simpl.
    rewrite list_lookup_fmap.
    destruct (decoded decrypt key used !! c) as [bits|]; [|done].
    intros [= <-]. by exists s, bits. }
  split.
  - intros c v (s & bits & [= <-] & ->)%Hentry.
    apply (field_bound (Slice 0 8) bits).
  - intros i c v (s & bits & Hs & ->)%Hentry.
    pose proof (field_bound s bits) as [Hlo Hhi]. split; [done|].
    eapply Z.lt_le_trans; [exact Hhi|].
    change 16384%Z with (2 ^ Z.of_nat 14)%Z.
    apply Z.pow_le_mono_r; [lia|].
    destruct i as [|i]; [injection Hs as <-; simpl; lia|].
    simpl in Hs.
    destruct (Forall2_lookup_r _ _ _ _ _ Hms Hs) as (ch & _ & Hch).
    apply table_slices_width in Hch. simpl in Hch. lia.
Qed.

Lemma acquired_samples_fit_14_bits_witness :
  ∃ rest eeg saved,
    acquireData plaintext_decrypt bench_second idle_late bench_session 1
                ["O1"; "GYROX"] None
      = Some (bench_session, rest, Ok (eeg, saved)) ∧
    (∀ c v, mat_get eeg 0 c = Some v → (0 ≤ v < 256)%Z) ∧
    (∀ i c v, mat_get eeg i c = Some v → (0 ≤ v < 16384)%Z).
Proof.
  apply (acquired_samples_fit_14_bits plaintext_decrypt bench_key
           bench_second idle_late bench_session 1 128 ["O1"; "GYROX"] None).
  - apply bench_session_ready.
  - apply bench_second_steady.
  - reflexivity.
  - reflexivity.
  - vm_compute. lia.
  - apply (bool_decide_unpack _). by vm_compute.
Defined.

(** ** The saved file *)

Lemma matlab_rows_lookup (m : matrix) (mask : list string) :
  ∀ i data data',
    NoDup mask →
    matlab_rows m i mask data = Ok data' →
    (∀ j ch, mask !! j = Some ch → data' !! ch = m !! S (i + j)) ∧
    (∀ k, k ∉ mask → data' !! k = data !! k).
Proof.
  induction mask as [|ch mask IH]; intros i data data' Hnd Hrows.
  - injection Hrows as <-. split; [by intros j ch ?|done].
  - apply NoDup_cons in Hnd as [Hch Hnd]. cbn [matlab_rows] in Hrows.
    unfold mat_row in Hrows.
    destruct (m !! S i) as [row|] eqn:Hrow; [|discriminate].
    rewrite result_bind_Ok in Hrows.
    destruct (IH _ _ _ Hnd Hrows) as [Hin Hout]. split.
    + intros [|j] ch' Hj; simpl in Hj.
      * injection Hj as <-.
        by rewrite (Hout ch Hch), lookup_insert_eq, Nat.add_0_r.
      * rewrite (Hin j ch' Hj). f_equal. lia.
    + intros k Hk. apply not_elem_of_cons in Hk as [Hne Hk].
      by rewrite (Hout k Hk), lookup_insert_ne.
Qed.

(** With a non-empty prefix the file handed to [savemat] is named
    [prefix-ch1-...-chk.mat]; for a mask of distinct names other than
    "SEQ" its variable "SEQ" is row 0 of the matrix, the variable named
    after the [i]-th channel is row [i + 1], and there is no other
    variable. *)
Theorem save_matlab_contents (m : matrix) (mask : list string)
    (prefix : string) :
  prefix ≠ "" →
  length m = length mask + 1 →
  NoDup mask →
  "SEQ" ∉ mask →
  ∃ data,
    save_matlab m mask (Some prefix)
      = Ok (Some (MatFile (prefix +:+ "-" +:+ String.concat "-" mask
                             +:+ ".mat") data)) ∧
    data !! "SEQ" = m !! 0 ∧
    (∀ i ch, mask !! i = Some ch → data !! ch = m !! S i) ∧
    (∀ k, is_Some (data !! k) ↔ k = "SEQ" ∨ k ∈ mask).
Proof.
  intros Hprefix Hlen Hnd Hseq. unfold save_matlab.
  destruct prefix as [|c prefix]; [done|].
  destruct (lookup_lt_is_Some_2 m 0) as [row Hrow]; [lia|].
  unfold mat_row at 1. rewrite Hrow, result_bind_Ok.
  destruct (matlab_rows_ok m mask 0 {["SEQ" := row]}) as [data Hdata]; [lia|].
  rewrite Hdata, result_bind_Ok.
  destruct (matlab_rows_lookup m mask 0 _ data Hnd Hdata) as [Hin Hout].
  exists data. split_and!; [done | | |].
  - by rewrite (Hout "SEQ" Hseq), lookup_singleton_eq.
  - intros i ch Hi. by rewrite (Hin i ch Hi).
  - intros k. destruct (decide (k ∈ mask)) as [Hk|Hk].
    + split; [by right|]. intros _.
      apply list_elem_of_lookup in Hk as [i Hi].
      rewrite (Hin i k Hi). apply lookup_lt_is_Some_2.
      apply lookup_lt_Some in Hi. simpl. lia.
    + rewrite (Hout k Hk). split.
      * intros [v Hv]. left.
        apply lookup_singleton_Some in Hv as [<- _]. done.
      * intros [->|?]; [|done]. rewrite lookup_singleton_eq. by eexists.
Qed.

Lemma save_matlab_contents_witness :
  ∃ data,
    save_matlab [[0; 1]; [7; 8]; [5; 6]]%Z ["O1"; "O2"] (Some "run")
      = Ok (Some (MatFile ("run" +:+ "-" +:+ String.concat "-" ["O1"; "O2"]
                             +:+ ".mat") data)) ∧
    data !! "SEQ" = [[0; 1]; [7; 8]; [5; 6]]%Z !! 0 ∧
    (∀ i ch, ["O1"; "O2"] !! i = Some ch →
             data !! ch = [[0; 1]; [7; 8]; [5; 6]]%Z !! S i) ∧
    (∀ k, is_Some (data !! k) ↔ k = "SEQ" ∨ k ∈ ["O1"; "O2"]).
Proof.
  apply (save_matlab_contents [[0; 1]; [7; 8]; [5; 6]]%Z ["O1"; "O2"] "run").
  - discriminate.
  - reflexivity.
  - apply (bool_decide_unpack _). by vm_compute.
  - apply (bool_decide_unpack _). by vm_compute.
Defined.

(** ** Frames left on the output queue, and successive calls *)

Lemma zip_with_app_fmap {A B} (f g : A → list B) (l : list A) :
  zip_with app (f <$> l) (g <$> l) = (λ x, f x ++ g x) <$> l.
Proof. induction l as [|x l IH]; simpl; [done|]. f_equal. apply IH. Qed.

(** Decoded frames that an earlier call left on the output queue are
    not discarded: the next call counts them towards its target, reads
    only the [n] frames that are still missing (plus one per dropped
    frame), and returns the left-over frames as the first columns of its
    matrix, before the newly decoded ones. *)
Theorem leftover_frames_are_returned_first
    (decrypt : string → raw_frame → option bit_frame) (key : string)
    (env : list tick) (late : late_steps) (self : EPOC) (duration : Q)
    (n : nat) (mask : list string) (savePrefix : option string) :
  workers self = [key] →
  slices self = slices_table →
  sampling_rate self = 128%Z →
  input_queue self = [] →
  Forall (λ bits, length bits = frame_bits) (output_queue self) →
  steady decrypt key env →
  (duration * 128
     == inject_Z (Z.of_nat (length (output_queue self) + n)))%Q →
  n ≤ length (decoded decrypt key env) →
  Forall (λ ch, is_Some (slices self !! ch)) mask →
  ∃ used rest eeg saved,
    env = used ++ rest ∧
    acquireData decrypt env late self duration mask savePrefix
      = Some (drained self, rest, Ok (eeg, saved)) ∧
    length used = n + faults decrypt key used ∧
    ∀ c bits,
      (output_queue self ++ decoded decrypt key used) !! c = Some bits →
      mat_get eeg 0 c = Some (field (Slice 0 8) bits) ∧
      ∀ i chName,
        mask !! i = Some chName →
        ∃ s, slices self !! chName = Some s ∧
             mat_get eeg (S i) c = Some (field s bits).
Proof.
  intros Hkey Htbl Hrate Hin Hstale Hst Htotal Hn Hmask. rewrite Htbl in *.
  destruct (mask_slices_exist _ _ Hmask) as [ss Hms].
  destruct (acquireData_steady_stale decrypt key env late self duration mask
              ss savePrefix n) as [saved Hacq]; try done.
  { by rewrite Hrate. }
  destruct (acquire_loop_reads_for decrypt key (duration * 128) env self n)
    as [_ Hlen]; try done.
  eexists (reads_for decrypt key n env), _, _, saved.
  split_and!; [apply reads_for_split | exact Hacq | |].
  - rewrite (reads_decoded_faults decrypt key _
               (reads_for_steady decrypt key n env Hst)), Hlen. lia.
  - intros c bits Hc. split.
    + unfold mat_get. simpl. by rewrite list_lookup_fmap, Hc.
    + intros i chName Hi.
      destruct (Forall2_lookup_l _ _ _ _ _ Hms Hi) as (s & Hs & Hch).
      exists s. split; [done|].
      unfold mat_get. simpl.
      by rewrite list_lookup_fmap, Hs; simpl; rewrite list_lookup_fmap, Hc.
Qed.

Lemma stale_session_frames :
  Forall (λ bits, length bits = frame_bits) (output_queue stale_session).
Proof. apply (bool_decide_unpack _). by vm_compute. Qed.

Lemma leftover_frames_are_returned_first_witness :
  ∃ used rest eeg saved,
    bench_second = used ++ rest ∧
    acquireData plaintext_decrypt bench_second idle_late stale_session 1
                ["O1"] None
      = Some (drained stale_session, rest, Ok (eeg, saved)) ∧
    length used = 1 + faults plaintext_decrypt bench_key used ∧
    ∀ c bits,
      (output_queue stale_session
         ++ decoded plaintext_decrypt bench_key used) !! c = Some bits →
      mat_get eeg 0 c = Some (field (Slice 0 8) bits) ∧
      ∀ i chName,
        ["O1"] !! i = Some chName →
        ∃ s, slices stale_session !! chName = Some s ∧
             mat_get eeg (S i) c = Some (field s bits).
Proof.
  apply (leftover_frames_are_returned_first plaintext_decrypt bench_key
           bench_second idle_late stale_session 1 1 ["O1"] None).
  - reflexivity.
  - reflexivity.
  - reflexivity.
  - reflexivity.
  - apply stale_session_frames.
  - apply bench_second_steady.
  - by vm_compute.
  - vm_compute. lia.
  - apply (bool_decide_unpack _). by vm_compute.
Defined.

(** Two calls in a row return what one call of the summed duration
    returns: in normal operation the matrix of the long call is, row by
    row, the matrix of the first call followed by the matrix of the
    second, and the same reads have been consumed. *)
Theorem back_to_back_acquisitions
    (decrypt : string → raw_frame → option bit_frame) (key : string)
    (env : list tick) (late1 late2 late12 : late_steps) (self : EPOC)
    (d1 d2 : Q) (n1 n2 : nat) (mask : list string)
    (savePrefix : option string) :
  ready key self →
  steady decrypt key env →
  (0 < d1)%Q → (0 < d2)%Q →
  (d1 * 128 == inject_Z (Z.of_nat n1))%Q →
  (d2 * 128 == inject_Z (Z.of_nat n2))%Q →
  n1 + n2 ≤ length (decoded decrypt key env) →
  Forall (λ ch, is_Some (slices self !! ch)) mask →
  ∃ rest1 rest2 m1 m2 saved1 saved2 saved12,
    acquireData decrypt env late1 self d1 mask savePrefix
      = Some (self, rest1, Ok (m1, saved1)) ∧
    acquireData decrypt rest1 late2 self d2 mask savePrefix
      = Some (self, rest2, Ok (m2, saved2)) ∧
    acquireData decrypt env late12 self (d1 + d2) mask savePrefix
      = Some (self, rest2, Ok (zip_with app m1 m2, saved12)).
Proof.
  intros (Hkey & Htbl & Hrate & Hin & Hout) Hst _ _ Hd1 Hd2 Hlen Hmask.
  rewrite Htbl in *.
  destruct (mask_slices_exist _ _ Hmask) as [ss Hms].
  assert (Hself : drained self = self).
  { unfold drained. by rewrite <- Hin, <- Hout, set_queues_id. }
  set (used1 := reads_for decrypt key n1 env).
  set (rest1 := drop (length used1) env).
  assert (Henv : env = used1 ++ rest1) by apply reads_for_split.
  assert (Hfr : Forall (λ bits, length bits = frame_bits) (output_queue self))
    by (by rewrite Hout).
  destruct (acquire_loop_reads_for decrypt key (d1 * 128) env self n1)
    as [_ Hlen1]; try done; try lia.
  { by rewrite Hout. }
  fold used1 in Hlen1.
  assert (Hst1 : steady decrypt key rest1) by (by apply Forall_drop).
  assert (Hn2 : n2 ≤ length (decoded decrypt key rest1)).
  { rewrite Henv, decoded_app, length_app in Hlen. lia. }
  destruct (acquireData_steady_stale decrypt key env late1 self d1 mask ss
              savePrefix n1) as [saved1 Hacq1];
    try done; try lia.
  { by rewrite Hrate, Hout. }
  destruct (acquireData_steady_stale decrypt key rest1 late2 self d2 mask ss
              savePrefix n2) as [saved2 Hacq2];
    try done; try lia.
  { by rewrite Hrate, Hout. }
  destruct (acquireData_steady_stale decrypt key env late12 self (d1 + d2)
              mask ss savePrefix (n1 + n2)) as [saved12 Hacq12];
    try done; try lia.
  { rewrite Hrate, Hout. simpl.
    rewrite Qmult_plus_distr_l, Hd1, Hd2, Nat2Z.inj_add, inject_Z_plus.
    reflexivity. }
  rewrite Hself, Hout, app_nil_l in Hacq1, Hacq2, Hacq12.
  fold used1 rest1 in Hacq1.
  rewrite (reads_for_add decrypt key n2 env n1 Hst) in Hacq12 by lia.
  fold used1 rest1 in Hacq12.
  rewrite length_app, <- drop_drop, decoded_app in Hacq12. fold rest1 in Hacq12.
  eexists rest1, _, _, _, saved1, saved2, saved12.
  split_and!; [exact Hacq1 | exact Hacq2 |].
  rewrite Hacq12. repeat f_equal.
  rewrite zip_with_app_fmap.
  apply list_fmap_ext. intros _ s _. by rewrite fmap_app.
Qed.

Lemma back_to_back_acquisitions_witness :
  ∃ rest1 rest2 m1 m2 saved1 saved2 saved12,
    acquireData plaintext_decrypt (bench_second ++ lossy_second) idle_late
                bench_session 1 ["O1"] None
      = Some (bench_session, rest1, Ok (m1, saved1)) ∧
    acquireData plaintext_decrypt rest1 busy_late bench_session (1 # 2)
                ["O1"] None
      = Some (bench_session, rest2, Ok (m2, saved2)) ∧
    acquireData plaintext_decrypt (bench_second ++ lossy_second) idle_late
                bench_session (1 + (1 # 2)) ["O1"] None
      = Some (bench_session, rest2, Ok (zip_with app m1 m2, saved12)).
Proof.
  apply (back_to_back_acquisitions plaintext_decrypt bench_key
           (bench_second ++ lossy_second) idle_late busy_late idle_late
           bench_session 1 (1 # 2) 128 64 ["O1"] None).
  - apply bench_session_ready.
  - apply Forall_app. split;
      [apply bench_second_steady | apply lossy_second_steady].
  - reflexivity.
  - reflexivity.
  - reflexivity.
  - reflexivity.
  - vm_compute. lia.
  - apply (bool_decide_unpack _). by vm_compute.
Defined.

(** ** No read beyond the target *)


